(** * The enyo property-path resolver and binding mixin

    A shallow embedding of the path functions of the enyo kernel utilities
    ([enyo.getPath], [enyo.setPath], [enyo.mixin], [enyo.bind],
    [enyo.bindSafely]) and of the [enyo.BindingSupport] mixin, together with
    the properties stated about them.

    Modelling conventions.
    - JavaScript values are the inductive [val]; numbers are the integers and
      [VNaN] (the embedded functions only test numbers for truthiness and
      strict equality, they never compute with them).
    - Objects live in a heap, a list of property maps addressed by index; a
      map holds every property visible through the object short of the
      members of [Object.prototype] (prototype chains are flattened,
      accessor properties are not modelled).  Those members are given by
      [Object_prototype]: [enyo.mixin], which compares values against them,
      reads through to them; the reads of the path functions stop at the
      map.  A fresh object literal is appended to the heap.  Array instances are not heap objects:
      the only arrays the embedded code builds are literals consumed on the
      spot, and they are lists here.
    - Reading a property of a boolean, number, string or function value
      yields [undefined] and writing one is dropped, as in non-strict code
      (the sources have no strict-mode directive); the built-in properties of
      boxed primitives and functions are not modelled.
    - Functions are opaque identifiers.  What calling one does is given by
      the host ([call]): it receives the receiver, the arguments and the
      heap and either returns or throws, with a new heap.  Calls are assumed
      to terminate.  Every call the embedded code makes is logged in the
      state's [trace]. *)

From Stdlib Require Import ZArith String Ascii List Bool Lia.
From stdpp Require Import base option list gmap strings fin_maps.

Local Open Scope string_scope.
Local Open Scope list_scope.

(** ** Values *)

Abbreviation loc := nat.
Abbreviation fid := nat.

Inductive val : Type :=
  | VUndef
  | VNull
  | VBool (b : bool)
  | VNum (n : Z)
  | VNaN
  | VStr (s : string)
  | VObj (l : loc)
  | VFun (f : fid).

#[global] Instance val_eq_dec : EqDecision val.
Proof. solve_decision. Defined.

Inductive jstype : Type :=
  | TUndefined | TObject | TBoolean | TNumber | TString | TFunction.

#[global] Instance jstype_eq_dec : EqDecision jstype.
Proof. solve_decision. Defined.

(** [typeof v] *)
Definition typeof (v : val) : jstype :=
  match v with
  | VUndef => TUndefined
  | VNull | VObj _ => TObject
  | VBool _ => TBoolean
  | VNum _ | VNaN => TNumber
  | VStr _ => TString
  | VFun _ => TFunction
  end.

Definition nonempty (s : string) : bool :=
  match s with EmptyString => false | String _ _ => true end.

(** The truth value of [v] in a condition. *)
Definition truthy (v : val) : bool :=
  match v with
  | VUndef | VNull | VNaN => false
  | VBool b => b
  | VNum n => negb (Z.eqb n 0)
  | VStr s => nonempty s
  | VObj _ | VFun _ => true
  end.

(** [v === w]; [v !== w] is its negation.  NaN equals nothing. *)
Definition strict_eq (v w : val) : bool :=
  match v, w with
  | VNaN, _ | _, VNaN => false
  | _, _ => bool_decide (v = w)
  end.

(** The function objects [enyo.getPath] and [enyo.setPath] themselves, which
    the walks compare hooks against. *)
Definition fn_getPath : fid := 0.
Definition fn_setPath : fid := 1.

(** ** Heap and state *)

Abbreviation obj := (gmap string val).

Inductive event : Type :=
  | Call (f : fid) (this : val) (args : list val).

Record state : Type := State {
  heap : list obj;
  trace : list event
}.

Inductive exn : Type :=
  | TypeError                (* raised by the engine *)
  | Raised (v : val)         (* thrown by a called function *)
  | Failure (msg : string)   (* [throw('...')] in the embedded code *)
  | OutsideModel.            (* a conversion the embedding does not cover *)

Inductive outcome (S A : Type) : Type :=
  | Ok (a : A) (s : S)
  | Throw (e : exn) (s : S).
Arguments Ok {S A} a s.
Arguments Throw {S A} e s.

(** Computations over a state [S] that return or throw. *)
Definition St (S A : Type) : Type := S → outcome S A.

#[global] Instance St_ret {S} : MRet (St S) := λ A a s, Ok a s.
#[global] Instance St_bind {S} : MBind (St S) := λ A B k m s,
  match m s with
  | Ok a s' => k a s'
  | Throw e s' => Throw e s'
  end.

Definition throw {S A} (e : exn) : St S A := λ s, Throw e s.

Abbreviation M := (St state).

Definition get_heap : M (list obj) := λ s, Ok (heap s) s.

(** What the host answers to a call. *)
Inductive reply : Type :=
  | Returns (v : val) (h : list obj)
  | Throws (v : val) (h : list obj).

Class Host : Type := {
  call : fid → val → list val → list obj → reply;
  enyo : val;      (* the [enyo] namespace object *)
  global : val     (* [enyo.global] *)
}.

(** [h[l][k]] for an object known to be at [l]. *)
Definition field (h : list obj) (l : loc) (k : string) : val :=
  match h !! l with
  | Some o => default VUndef (o !! k)
  | None => VUndef
  end.

Definition store (h : list obj) (l : loc) (k : string) (x : val) : list obj :=
  match h !! l with
  | Some o => <[l := <[k := x]> o]> h
  | None => h
  end.

(** [v[k]] *)
Definition get_prop (v : val) (k : string) : M val := λ s,
  match v with
  | VUndef | VNull => Throw TypeError s
  | VObj l => Ok (field (heap s) l k) s
  | _ => Ok VUndef s
  end.

(** [v[k] = x] *)
Definition set_prop (v : val) (k : string) (x : val) : M unit := λ s,
  match v with
  | VUndef | VNull => Throw TypeError s
  | VObj l => Ok tt {| heap := store (heap s) l k x; trace := trace s |}
  | _ => Ok tt s
  end.

(** An object literal. *)
Definition alloc (o : obj) : M val := λ s,
  Ok (VObj (length (heap s))) {| heap := heap s ++ [o]; trace := trace s |}.

(** A property key given by a value; only strings are covered. *)
Definition to_key (v : val) : M string :=
  match v with
  | VStr s => mret s
  | _ => throw OutsideModel
  end.

Section Calls.
Context `{Host}.

(** [fn.call(this, ...args)] *)
Definition invoke (fn this : val) (args : list val) : M val := λ s,
  match fn with
  | VFun f =>
      let t := trace s ++ [Call f this args] in
      match call f this args (heap s) with
      | Returns v h => Ok v {| heap := h; trace := t |}
      | Throws v h => Throw (Raised v) {| heap := h; trace := t |}
      end
  | _ => Throw TypeError s
  end.

End Calls.

(** ** Path strings *)

Definition leads_with_dot (s : string) : bool :=
  match s with
  | String c _ => Ascii.eqb c "."
  | EmptyString => false
  end.

(** [s.replace(/^\.+/, '')] *)
Fixpoint strip_dots (s : string) : string :=
  match s with
  | String c s' => if Ascii.eqb c "." then strip_dots s' else s
  | EmptyString => EmptyString
  end.

(** [s.split('.')] *)
Fixpoint split_dot (s : string) : list string :=
  match s with
  | EmptyString => [EmptyString]
  | String c s' =>
      if Ascii.eqb c "." then EmptyString :: split_dot s'
      else match split_dot s' with
           | w :: ws => String c w :: ws
           | [] => [String c EmptyString]
           end
  end.

(** [parts.join('.')] *)
Definition join_dot (parts : list string) : string := String.concat "." parts.

(** ** enyo.getPath *)

Section GetPath.
Context `{Host}.

(** [next._getters && (getter = next._getters[part]) && !getter.generated] *)
Definition custom_getter (next : val) (part : string) : M (option val) :=
  getters ← get_prop next "_getters";
  if truthy getters then
    getter ← get_prop getters part;
    if truthy getter then
      generated ← get_prop getter "generated";
      mret (if truthy generated then None else Some getter)
    else mret None
  else mret None.

(** The body of the [do] loop: one segment resolved against [next]. *)
Definition getPath_step (this next : val) (part : string) : M val :=
  g ← custom_getter next part;
  match g with
  | Some getter =>
      key ← to_key getter;
      m ← get_prop next key;
      invoke m next []
  | None =>
      get ← get_prop next "get";
      if truthy get && negb (strict_eq next this)
         && negb (strict_eq get (VFun fn_getPath))
      then invoke get next [VStr part]
      else get_prop next part
  end.

(** [do { ... } while (next && (part = parts.shift()))] *)
Fixpoint getPath_loop (this next : val) (part : string) (parts : list string)
  : M val :=
  v ← getPath_step this next part;
  if truthy v then
    match parts with
    | p :: ps => if nonempty p then getPath_loop this v p ps else mret v
    | [] => mret v
    end
  else mret v.

Definition getPath (this path : val) : M val :=
  if negb (truthy path) && negb (strict_eq path VNull)
     && negb (strict_eq path VUndef)
  then mret path
  else
    let next := if strict_eq this enyo then global else this in
    match path with
    | VUndef | VNull => throw TypeError          (* [path[0]] *)
    | VStr s =>
        let s := if leads_with_dot s then strip_dots s else s in
        if negb (nonempty s) then mret VUndef
        else match split_dot s with
             | part :: parts => getPath_loop this next part parts
             | [] => mret VUndef
             end
    | VBool _ | VNum _ | VNaN => throw TypeError (* [path.split] *)
    | VObj _ | VFun _ => throw OutsideModel
    end.

End GetPath.

(** ** enyo.mixin

    [setPath] calls [enyo.mixin({}, [options, opts])]: the third argument is
    absent, so the merge runs under [mixinDefaults], whose [filter] is null;
    the [exists] and [ignore] flags are kept. *)

Record mixin_flags : Type := MixinFlags {
  mx_exists : bool;
  mx_ignore : bool
}.

Definition mixinDefaults : mixin_flags :=
  {| mx_exists := false; mx_ignore := false |}.

(** The members every object inherits from [Object.prototype]: built-in
    functions, told apart from all others by their identity.  The accessor
    [__proto__] is left out: an own property of that name, which only
    [JSON.parse] or [defineProperty] give an object, is outside the model. *)
Definition Object_prototype : obj :=
  {[ "constructor" := VFun 30; "toString" := VFun 31;
     "toLocaleString" := VFun 32; "valueOf" := VFun 33;
     "hasOwnProperty" := VFun 34; "isPrototypeOf" := VFun 35;
     "propertyIsEnumerable" := VFun 36;
     "__defineGetter__" := VFun 37; "__defineSetter__" := VFun 38;
     "__lookupGetter__" := VFun 39; "__lookupSetter__" := VFun 40 ]}.

(** [empty[key]] for [var empty = {}]: the inherited member, if there is
    one. *)
Definition empty (key : string) : val :=
  default VUndef (Object_prototype !! key).

(** [ret[key]] on a property map: the property, else the inherited
    member. *)
Definition reads (ret : obj) (key : string) : val :=
  default (empty key) (ret !! key).

(** The body of [for (var key in src)]. *)
Definition mixin_key (o : mixin_flags) (key : string) (v : val) (ret : obj)
  : obj :=
  if negb (strict_eq (empty key) v) then
    if (negb (mx_exists o) || truthy v)
       && (negb (mx_ignore o) || negb (truthy (reads ret key)))
    then <[key := v]> ret
    else ret
  else ret.

(** [for (var key in src) ...] over the properties of one source. *)
Definition mixin_src (o : mixin_flags) (ret src : obj) : obj :=
  map_fold (mixin_key o) ret src.

(** [mixin(ret, it, opts)] for one source value. *)
Definition mixin_one (h : list obj) (o : mixin_flags) (ret : obj) (it : val)
  : obj :=
  match it with
  | VObj l =>
      match h !! l with
      | Some src => mixin_src o ret src
      | None => ret
      end
  | _ => ret
  end.

(** [mixin(ret, src, opts)] for an array literal [src]:
    [for (var i=0, it; (it=src[i]); ++i) mixin(ret, it, opts)] *)
Fixpoint mixin (h : list obj) (o : mixin_flags) (ret : obj)
  (src : list val) : obj :=
  match src with
  | it :: rest =>
      if truthy it then mixin h o (mixin_one h o ret it) rest else ret
  | [] => ret
  end.

(** ** enyo.setPath *)

Definition default_options : obj :=
  <["create" := VBool true]>
    (<["silent" := VBool false]> (<["force" := VBool false]> ∅)).

(** How the walk of [setPath] ends: the function has already returned (the
    write was handed to a node's own [set]), or the loop was left with
    [next], [part] and [was] as given. *)
Inductive walk : Type :=
  | Returned
  | Reached (next : val) (part : string) (was : val).

Section SetPath.
Context `{Host}.

(** [next !== base && next.set && next.set !== setPath], with the hook. *)
Definition own_set (base next : val) : M (option val) :=
  if negb (strict_eq next base) then
    set ← get_prop next "set";
    mret (if truthy set && negb (strict_eq set (VFun fn_setPath))
          then Some set else None)
  else mret None.

(** [next.get && next.get !== getPath ? next.get(part) : next[part]] *)
Definition read_was (next : val) (part : string) : M val :=
  get ← get_prop next "get";
  if truthy get && negb (strict_eq get (VFun fn_getPath))
  then invoke get next [VStr part]
  else get_prop next part.

(** The lookup of an intermediate segment, before the [||]. *)
Definition read_next (base next : val) (part : string) : M val :=
  if negb (strict_eq next base) then
    get ← get_prop next "get";
    if truthy get then
      if negb (strict_eq get (VFun fn_getPath))
      then invoke get next [VStr part]
      else get_prop next part
    else get_prop next part
  else get_prop next part.

(** [found || (create && (next[part] = {}))] *)
Definition or_create (create next : val) (part : string) (found : val)
  : M val :=
  if truthy found then mret found
  else if truthy create then
    o ← alloc ∅;
    set_prop next part o;;
    mret o
  else mret create.

(** [do { ... } while (next && parts.length && (part = parts.shift()))] *)
Fixpoint setPath_loop (base is_ opts create next : val) (part : string)
  (parts : list string) : M walk :=
  match parts with
  | [] =>
      was ← read_was next part;
      mret (Reached next part was)
  | p :: ps =>
      d ← own_set base next;
      match d with
      | Some set =>
          invoke set next [VStr (join_dot (part :: parts)); is_; opts];;
          mret Returned
      | None =>
          found ← read_next base next part;
          next' ← or_create create next part found;
          if truthy next' then
            if nonempty p then setPath_loop base is_ opts create next' p ps
            else mret (Reached next' p VUndef)
          else mret (Reached next' part VUndef)
      end
  end.

(** [force || was !== is || (comparator && comparator(was, is))] *)
Definition changed (force comparator was is_ : val) : M bool :=
  if truthy force || negb (strict_eq was is_) then mret true
  else if truthy comparator then
    r ← invoke comparator VUndef [was; is_];
    mret (truthy r)
  else mret false.

(** The statements after the loop. *)
Definition setPath_finish (base is_ opts force silent comparator : val)
  (w : walk) : M val :=
  match w with
  | Returned => mret base
  | Reached next part was =>
      if negb (truthy next) then mret base
      else
        d ← own_set base next;
        match d with
        | Some set =>
            invoke set next [VStr part; is_; opts];;
            mret base
        | None =>
            set_prop next part is_;;
            notify ← get_prop next "notify";
            fire ← (if truthy notify && negb (truthy silent)
                    then changed force comparator was is_
                    else mret false);
            if (fire : bool)
            then (invoke notify next [VStr part; was; is_; opts];; mret base)
            else mret base
        end
  end.

(** [if (typeof opts == 'object') opts = enyo.mixin({}, [options, opts]);
     else { force = opts; opts = options; }]: the options object and the
    positional force flag. *)
Definition read_opts (options opts : val) : M (val * val) :=
  if bool_decide (typeof opts = TObject) then
    h ← get_heap;
    merged ← alloc (mixin h mixinDefaults ∅ [options; opts]);
    mret (merged, VUndef)
  else mret (options, opts).

Definition setPath (this path is_ opts : val) : M val :=
  if negb (truthy path)
     || (negb (truthy path) && negb (strict_eq path VNull)
         && negb (strict_eq path VUndef))
  then mret this
  else
    let next := if strict_eq this enyo then global else this in
    let base := next in
    options ← alloc default_options;
    '(opts, force) ← read_opts options opts;
    oforce ← get_prop opts "force";
    let force := if truthy oforce then VBool true else force in
    silent ← get_prop opts "silent";
    create ← get_prop opts "create";
    comparator ← get_prop opts "comparator";
    match path with
    | VStr s =>
        let s := if leads_with_dot s then strip_dots s else s in
        if negb (nonempty s) then mret next
        else match split_dot s with
             | part :: parts =>
                 w ← setPath_loop base is_ opts create next part parts;
                 setPath_finish base is_ opts force silent comparator w
             | [] => mret next
             end
    | VBool _ | VNum _ => throw TypeError        (* [path.split] *)
    | VObj _ | VFun _ => throw OutsideModel
    | VUndef | VNull | VNaN => mret this         (* falsy: returned above *)
    end.

End SetPath.

(** ** enyo.bind and enyo.bindSafely

    Both return a closure, described here by what it captured.  The text of
    the thrown messages is kept up to the renderings of [scope] and [this],
    which would run conversions of their own. *)

Inductive closure : Type :=
  | Bound (method scope : val) (args : list val)
  | BoundSafely (method scope : val) (args : list val).

Section Bind.
Context `{Host}.

Definition bind (scope method : val) (args : list val) : M closure :=
  let '(method, scope) :=
    if negb (truthy method) then (scope, VNull) else (method, scope) in
  let scope := if truthy scope then scope else global in
  method ← match method with
           | VStr name =>
               m ← get_prop scope name;
               if truthy m then mret m
               else throw (Failure ("enyo.bind: scope[" ++ name ++ "] is null"))
           | _ => mret method
           end;
  if bool_decide (typeof method = TFunction)
  then mret (Bound method scope args)
  else throw (Failure "enyo.bind: scope[method] is not a function").

Definition bindSafely (scope method : val) (args : list val) : M closure :=
  method ← match method with
           | VStr name =>
               m ← get_prop scope name;
               if truthy m then mret m
               else throw (Failure ("enyo.bindSafely: scope[" ++ name ++ "] is null"))
           | _ => mret method
           end;
  if bool_decide (typeof method = TFunction)
  then mret (BoundSafely method scope args)
  else throw (Failure "enyo.bindSafely: scope[method] is not a function").

End Bind.

(** ** enyo.BindingSupport

    The mixin's slice of an owner: the [bindings] array, the initialized
    flag, the Binding instances created so far (addressed by index) and a log
    of constructor and destroy invocations.  Descriptor hashes are property
    maps. *)

Module BindingSupport.

(** An element of [this.bindings]. *)
Inductive entry : Type :=
  | Raw (props : obj)
  | Live (b : nat).

#[global] Instance entry_eq_dec : EqDecision entry.
Proof. solve_decision. Defined.

(** Modelled from the spec: enyo.Binding (source/kernel/Binding.js) is not
    among the sources.  An instance carries the keys of the descriptor it was
    built from (unknown keys are passed through onto the instantiated
    Binding), among them its owner reference, and a flag telling whether
    it has been destroyed. *)
Record Binding : Type := MkBinding {
  fields : obj;
  destroyed : bool
}.

Inductive bevent : Type :=
  | Constructed (ctor : val) (props : obj)
  | Destroyed (b : nat).

Record owner : Type := Owner {
  bindings : option (list entry);     (* [None]: null or undefined *)
  bindingSupportInitialized : bool;   (* [_bindingSupportInitialized] *)
  instances : list Binding;
  log : list bevent
}.

Abbreviation B := (St owner).

Class Kinds : Type := {
  self : val;                          (* [this] *)
  own_defaultBindingKind : val;        (* [this.defaultBindingKind] *)
  defaultBindingKind : val;            (* [enyo.defaultBindingKind] *)
  constructorForKind : string → val;   (* [enyo.constructorForKind] *)
  sup_constructed : B unit;            (* the inherited [constructed] *)
  sup_destroy : B unit                 (* the inherited [destroy] *)
}.

Definition set_bindings (l : option (list entry)) : B unit := λ w,
  Ok tt {| bindings := l;
           bindingSupportInitialized := bindingSupportInitialized w;
           instances := instances w; log := log w |}.

Definition set_initialized (b : bool) : B unit := λ w,
  Ok tt {| bindings := bindings w; bindingSupportInitialized := b;
           instances := instances w; log := log w |}.

Definition set_instances (l : list Binding) : B unit := λ w,
  Ok tt {| bindings := bindings w;
           bindingSupportInitialized := bindingSupportInitialized w;
           instances := l; log := log w |}.

Definition emit (e : bevent) : B unit := λ w,
  Ok tt {| bindings := bindings w;
           bindingSupportInitialized := bindingSupportInitialized w;
           instances := instances w; log := log w ++ [e] |}.

Definition get_owner : B owner := λ w, Ok w w.

Definition prop (o : obj) (k : string) : val := default VUndef (o !! k).

(** [a || b] *)
Definition or_else (a b : val) : val := if truthy a then a else b.

(** [bindings.push(e)] on the owner's array. *)
Definition push (e : entry) : B unit :=
  w ← get_owner;
  set_bindings (Some (default [] (bindings w) ++ [e])).

(** Modelled from the spec: [new Ctor(props)] for a Binding constructor,
    which is not among the sources.  A value that is not a function cannot be
    constructed; otherwise a fresh instance holding [props] is created. *)
Definition construct (Ctor : val) (props : obj) : B nat :=
  if bool_decide (typeof Ctor = TFunction) then
    w ← get_owner;
    emit (Constructed Ctor props);;
    set_instances (instances w ++ [MkBinding props false]);;
    mret (length (instances w))
  else throw TypeError.

(** [enyo.remove(el, array)]: the first element strictly equal to [el] is
    spliced out. *)
Fixpoint remove (el : entry) (array : list entry) : list entry :=
  match array with
  | x :: rest => if bool_decide (x = el) then rest else x :: remove el rest
  | [] => []
  end.

Section Mixin.
Context `{Kinds}.

(** [props = mixin(args)] *)
Definition merged (args : list obj) : obj :=
  foldl (mixin_src mixinDefaults) ∅ args.

(** [props.owner = props.owner || this] *)
Definition with_owner (props : obj) : obj :=
  <["owner" := or_else (prop props "owner") self]> props.

(** [props.kind || this.defaultBindingKind || defaultBindingKind] *)
Definition kind_of (props : obj) : val :=
  or_else (or_else (prop props "kind") own_defaultBindingKind)
          defaultBindingKind.

(** [isString(Ctor) && (Ctor = props.kind = constructorForKind(Ctor))] *)
Definition ctor_of (kind : val) : val :=
  match kind with
  | VStr name => constructorForKind name
  | _ => kind
  end.

(** The constructor and the properties a declaration is instantiated with
    once the owner is initialized. *)
Definition declared_ctor (args : list obj) : val :=
  ctor_of (kind_of (with_owner (merged args))).

Definition declared_props (args : list obj) : obj :=
  <["kind" := declared_ctor args]> (with_owner (merged args)).

Inductive bret : Type :=
  | This
  | Instance (b : nat).

Definition binding (args : list obj) : B bret :=
  w ← get_owner;
  set_bindings (Some (default [] (bindings w)));;
  let props := with_owner (merged args) in
  let props := <["kind" := kind_of props]> props in
  if bindingSupportInitialized w then
    bnd ← construct (declared_ctor args) (declared_props args);
    push (Live bnd);;
    mret (Instance bnd)
  else
    push (Raw props);;
    mret This.

(** [removeBinding(binding)] *)
Definition removeBinding (b : nat) : B unit :=
  w ← get_owner;
  match bindings w with
  | None => throw TypeError
  | Some l =>
      set_bindings (Some (remove (Live b) l));;
      match instances w !! b with
      | Some i =>
          if strict_eq (prop (fields i) "owner") self
          then set_instances
                 (<[b := MkBinding (<["owner" := VNull]> (fields i))
                                   (destroyed i)]> (instances w))
          else mret tt
      | None => throw TypeError
      end
  end.

(** Modelled from the spec: [Binding.prototype.destroy], which is not among
    the sources.  A destroyed Binding is removed from its owner (the
    documentation of [removeBinding] says so), its owner reference is nulled
    and it is marked destroyed; only the owner [this] has its list in the
    state. *)
Definition Binding_destroy (b : nat) : B unit :=
  w ← get_owner;
  match instances w !! b with
  | None => throw TypeError
  | Some i =>
      emit (Destroyed b);;
      (if strict_eq (prop (fields i) "owner") self
       then removeBinding b else mret tt);;
      w ← get_owner;
      match instances w !! b with
      | Some i =>
          set_instances
            (<[b := MkBinding (<["owner" := VNull]> (fields i)) true]>
               (instances w))
      | None => throw TypeError
      end
  end.

(** [bnd.destroy()] for an element of the array. *)
Definition entry_destroy (e : entry) : B unit :=
  match e with
  | Live b => Binding_destroy b
  | Raw props =>
      if bool_decide (typeof (prop props "destroy") = TFunction)
      then throw OutsideModel else throw TypeError
  end.

(** [array.forEach(f)] *)
Fixpoint forEach {A} (f : A → B unit) (array : list A) : B unit :=
  match array with
  | x :: rest => f x;; forEach f rest
  | [] => mret tt
  end.

(** [clearBindings(subset)] *)
Definition clearBindings (subset : option (list entry)) : B unit :=
  w ← get_owner;
  match (match subset with Some l => Some l | None => bindings w end) with
  | Some l => forEach entry_destroy l
  | None => throw TypeError
  end.

(** [constructed], as installed by [inherit] over the inherited method. *)
Definition constructed : B unit :=
  w ← get_owner;
  set_initialized true;;
  match bindings w with
  | Some defs =>
      set_bindings (Some []);;
      forEach (λ def,
                 match def with
                 | Raw d => binding [d];; mret tt
                 | Live _ => throw OutsideModel
                 end) defs
  | None => mret tt
  end;;
  sup_constructed.

(** [destroy], as installed by [inherit] over the inherited method. *)
Definition destroy : B unit :=
  sup_destroy;;
  w ← get_owner;
  match bindings w with
  | Some (_ :: _) => clearBindings None
  | _ => mret tt
  end;;
  set_bindings None.

End Mixin.

(** A declaration whose kind resolves to a function. *)
Definition constructible `{Kinds} (d : obj) : bool :=
  bool_decide (typeof (declared_ctor [d]) = TFunction).

(** The instance a declaration becomes. *)
Definition instance_of `{Kinds} (d : obj) : Binding :=
  MkBinding (declared_props [d]) false.

Definition construction_of `{Kinds} (d : obj) : bevent :=
  Constructed (declared_ctor [d]) (declared_props [d]).

(** The Binding [b] exists and has been destroyed. *)
Definition is_destroyed (w : owner) (b : nat) : bool :=
  match instances w !! b with
  | Some i => destroyed i
  | None => false
  end.

Definition existing (w : owner) (bs : list nat) : bool :=
  forallb (λ b, bool_decide (b < length (instances w))) bs.

(** ** The Binding a declaration is to become

    Written after the specification, to be compared with what [constructed]
    builds: a declaration is instantiated by the kind it names, else by the
    owner's default kind, else by the framework's, a kind given by name
    being looked up; the Binding carries the keys the declaration sets, and
    its owner is the declaring object unless the declaration names one. *)

(** The keys a declaration sets.  A key holding undefined sets nothing, nor
    does, under a name of [Object.prototype], the inherited member. *)
Definition described_keys (d : obj) : obj :=
  filter (λ kv, strict_eq (empty kv.1) kv.2 = false) d.

Definition described_kind `{Kinds} (d : obj) : val :=
  let kind :=
    if truthy (prop d "kind") then prop d "kind"
    else if truthy own_defaultBindingKind then own_defaultBindingKind
    else defaultBindingKind in
  match kind with
  | VStr name => constructorForKind name
  | _ => kind
  end.

Definition described_owner `{Kinds} (d : obj) : val :=
  if truthy (prop d "owner") then prop d "owner" else self.

Definition described_fields `{Kinds} (d : obj) : obj :=
  <["kind" := described_kind d]>
    (<["owner" := described_owner d]> (described_keys d)).

Definition described_instance `{Kinds} (d : obj) : Binding :=
  MkBinding (described_fields d) false.

Definition described_construction `{Kinds} (d : obj) : bevent :=
  Constructed (described_kind d) (described_fields d).

(** An owner whose kinds resolve as in a running framework: function 20 is
    the default Binding constructor, also registered under its name, and the
    inherited methods return at once. *)
Definition plain_kinds : Kinds :=
  {| self := VObj 0;
     own_defaultBindingKind := VUndef;
     defaultBindingKind := VFun 20;
     constructorForKind := λ name,
       if bool_decide (name = "enyo.Binding") then VFun 20 else VUndef;
     sup_constructed := mret tt;
     sup_destroy := mret tt |}.

Definition two_declarations : list obj :=
  [{["from" := VStr ".a"; "to" := VStr ".b"]};
   {["from" := VStr ".c"; "to" := VStr ".d"; "kind" := VStr "enyo.Binding"]}].

(** An owner with two declarations queued, and one with two live Bindings. *)
Definition queued_owner : owner :=
  {| bindings := Some (map Raw two_declarations);
     bindingSupportInitialized := false;
     instances := []; log := [] |}.

(** The fields of the two Bindings: the keys of the declaration, the owner
    and the constructor. *)
Definition fields_a_b : obj :=
  {["from" := VStr ".a"; "to" := VStr ".b";
    "owner" := VObj 0; "kind" := VFun 20]}.

Definition fields_c_d : obj :=
  {["from" := VStr ".c"; "to" := VStr ".d";
    "owner" := VObj 0; "kind" := VFun 20]}.

Definition live_owner : owner :=
  {| bindings := Some [Live 0; Live 1];
     bindingSupportInitialized := true;
     instances := [MkBinding fields_a_b false; MkBinding fields_c_d false];
     log := [Constructed (VFun 20) fields_a_b;
             Constructed (VFun 20) fields_c_d] |}.

End BindingSupport.

(** * Predicates used in the statements *)

(** The state an outcome ends in, and the value it returns if it does. *)
Definition final {S A} (o : outcome S A) : S :=
  match o with Ok _ s | Throw _ s => s end.

Definition returned {S A} (o : outcome S A) : option A :=
  match o with Ok a _ => Some a | Throw _ _ => None end.

(** ** Paths *)

(** A path made of dots only. *)
Fixpoint only_dots (s : string) : bool :=
  match s with
  | String c s' => Ascii.eqb c "." && only_dots s'
  | EmptyString => true
  end.

(** The segments [getPath] and [setPath] walk for a path string: a leading
    run of dots is dropped, the rest is split at the dots. *)
Definition segments (p : string) : list string :=
  split_dot (if leads_with_dot p then strip_dots p else p).

Definition all_nonempty (segs : list string) : bool :=
  forallb nonempty segs.

Section Walks.
Context `{Host}.

(** [walks this s n segs s' n']: indexing by hand from [n], one segment
    after the other as the loop body of [getPath] resolves it, finds a truthy
    value at every segment of [segs] and ends on [n'], taking the state from
    [s] to [s']. *)
Inductive walks (this : val) : state → val → list string → state → val → Prop :=
  | walks_nil s n : walks this s n [] s n
  | walks_cons s n seg segs v s1 s' n' :
      getPath_step this n seg s = Ok v s1 →
      truthy v = true →
      walks this s1 v segs s' n' →
      walks this s n (seg :: segs) s' n'.

End Walks.

(** ** Paths that exist through plain nodes *)

(** A node whose [get] (resp. [set]) is absent, falsy, or the resolver's own
    function: the walks read and write its properties directly. *)
Definition plain_get (h : list obj) (l : loc) : bool :=
  negb (truthy (field h l "get"))
  || strict_eq (field h l "get") (VFun fn_getPath).

Definition plain_set (h : list obj) (l : loc) : bool :=
  negb (truthy (field h l "set"))
  || strict_eq (field h l "set") (VFun fn_setPath).

(** A node that [setPath], started on [base], walks through without calling
    a hook: the base itself, or a node with plain [get] and [set]. *)
Definition plain_step (h : list obj) (base l : loc) : bool :=
  bool_decide (l = base) || (plain_get h l && plain_set h l).

(** A node [setPath] reads the old value from and writes to directly. *)
Definition plain_last (h : list obj) (base l : loc) : bool :=
  plain_get h l && (bool_decide (l = base) || plain_set h l).

(** The node reached from [l] along [segs] when every segment exists, holds
    an object and is walked through plainly. *)
Fixpoint plain_target (h : list obj) (base l : loc) (segs : list string)
  : option loc :=
  match segs with
  | [] => Some l
  | seg :: rest =>
      if plain_step h base l then
        match field h l seg with
        | VObj l' => plain_target h base l' rest
        | _ => None
        end
      else None
  end.

(** The own property [k] of the object at [l], if both exist. *)
Definition own (h : list obj) (l : loc) (k : string) : option val :=
  o ← h !! l; o !! k.

(** The path [segs], then [last], from [base] exists through plain nodes and
    holds [v]. *)
Definition settled (h : list obj) (base : loc) (segs : list string)
    (last : string) (v : val) : bool :=
  match plain_target h base base segs with
  | Some T => plain_last h base T && bool_decide (own h T last = Some v)
  | None => false
  end.

(** * Concrete hosts and heaps *)

(** A host whose functions all return undefined and leave the heap alone;
    [enyo] and its global object are objects of their own. *)
Definition quiet_host : Host :=
  {| call := λ _ _ _ h, Returns VUndef h; enyo := VObj 100; global := VObj 101 |}.

(** [{a: {}}] *)
Definition heap_a_empty : list obj := [{["a" := VObj 1]}; ∅].

(** [{a: v}] *)
Definition heap_a (v : val) : list obj := [{["a" := v]}].

(** [{notify: f}] for the function 7 *)
Definition heap_notify : list obj := [{["notify" := VFun 7]}].

(** [heap_notify] once x has been set to NaN, and the two calls of the
    [notify] function that setting it twice makes. *)
Definition heap_notify_NaN : list obj :=
  [{["x" := VNaN; "notify" := VFun 7]}; default_options].

Definition notify_NaN_1 : event :=
  Call 7 (VObj 0) [VStr "x"; VUndef; VNaN; VObj 1].

Definition notify_NaN_2 : event :=
  Call 7 (VObj 0) [VStr "x"; VNaN; VNaN; VObj 2].

(** [{a: {notify: f}}] for the function 7 *)
Definition heap_a_notify : list obj :=
  [{["a" := VObj 1]}; {["notify" := VFun 7]}].

(** [heap_a_notify] once a.x has been set to 5, and the call of the [notify]
    function that setting it makes. *)
Definition heap_a_notify_5 : list obj :=
  [{["a" := VObj 1]}; {["x" := VNum 5; "notify" := VFun 7]}; default_options].

Definition notify_5 : event :=
  Call 7 (VObj 1) [VStr "x"; VUndef; VNum 5; VObj 2].

(** A host in which function 8, used as a [notify] hook, records on its
    receiver that it ran. *)
Definition marking_host : Host :=
  {| call := λ f this args h,
       match f, this with
       | 8, VObj l => Returns VUndef (store h l "notified" (VBool true))
       | _, _ => Returns VUndef h
       end;
     enyo := VObj 100; global := VObj 101 |}.

(** A host in which, besides, function 7 is a [set] method that hands its
    arguments to [setPath] on its receiver:
    [function (path, is, opts) { return setPath.apply(this, arguments); }] *)
Definition delegating_host : Host :=
  {| call := λ f this args h,
       match f, args with
       | 7, [path; is_; opts] =>
           match @setPath marking_host this path is_ opts (State h []) with
           | Ok v s => Returns v (heap s)
           | Throw _ s => Throws VUndef (heap s)
           end
       | _, _ => @call marking_host f this args h
       end;
     enyo := VObj 100; global := VObj 101 |}.

(** [{a: {set: f7, notify: f8, x: 5}}], and an options object
    [{force: true}] at location 2. *)
Definition heap_delegate : list obj :=
  [{["a" := VObj 1]};
   {["set" := VFun 7; "notify" := VFun 8; "x" := VNum 5]};
   {["force" := VBool true]}].


(** * Further functions of the kernel utilities *)

(** ** enyo.clone *)

(** [enyo.clone(base, quick)].  The quick copy is [Object.create(base)],
    whose result reads through its prototype; prototype links are not part
    of the heap, so that branch is left out.  Functions are instances of
    Object and carry no properties here. *)
Definition clone (base quick : val) : M val :=
  if truthy base then
    match base with
    | VObj l =>
        if truthy quick then throw OutsideModel
        else
          h ← get_heap;
          alloc (mixin_src mixinDefaults ∅ (default ∅ (h !! l)))
    | VFun _ =>
        if truthy quick then throw OutsideModel else alloc ∅
    | _ => mret base
    end
  else mret base.


(** ** Options objects *)

(** The options [setPath] works with when handed the options object [o]:
    [enyo.mixin({}, [options, opts])]. *)
Definition merged_options (o : obj) : obj :=
  mixin_src mixinDefaults default_options o.

(** One setting of them. *)
Definition setting (o : obj) (k : string) : val :=
  default VUndef (merged_options o !! k).


(** [{x: 5, notify: f}] for the function 7, next to an options object. *)
Definition heap_opts (o : obj) : list obj :=
  [{["x" := VNum 5; "notify" := VFun 7]}; o].

(** The same once x has been set to 5 under these options. *)
Definition heap_opts_set (o : obj) : list obj :=
  heap_opts o ++ [default_options; merged_options o].


(** [{a: {set: f7}}] *)
Definition heap_a_set : list obj := [{["a" := VObj 1]}; {["set" := VFun 7]}].


(** ** Reading along plain nodes *)

(** A node without a getter table. *)
Definition no_getters (h : list obj) (l : loc) : bool :=
  negb (truthy (field h l "_getters")).

(** No node from [l] along [segs], the last one included, has a getter
    table. *)
Fixpoint getters_free (h : list obj) (l : loc) (segs : list string) : bool :=
  no_getters h l
  && match segs with
     | [] => true
     | seg :: rest =>
         match field h l seg with
         | VObj l' => getters_free h l' rest
         | _ => true
         end
     end.

(** The nodes walked through from [l] along [segs], the one reached at the
    end left out. *)
Fixpoint visited (h : list obj) (l : loc) (segs : list string) : list loc :=
  match segs with
  | [] => []
  | seg :: rest =>
      l :: match field h l seg with
           | VObj l' => visited h l' rest
           | _ => []
           end
  end.

(** A computation that, unless it calls a function, leaves the state as it
    found it; calls only ever lengthen the trace. *)
Definition writes_nothing {A} (m : M A) : Prop :=
  ∀ s, (length (trace s) ≤ length (trace (final (m s))))%nat
       ∧ (length (trace (final (m s))) = length (trace s) → final (m s) = s).

(** [{a: {b: 1}}] *)
Definition heap_a_b : list obj := [{["a" := VObj 1]}; {["b" := VNum 1]}].


(** ** enyo.getPath.fast and enyo.setPath.fast *)

Section Fast.
Context `{Host}.

(** [enyo.checkConstructor], which is not among the sources. *)
Variable checkConstructor : val → M val.

(** [b._getters && (fn = b._getters[path])], then [b[fn]()] or [b[path]]. *)
Definition read_fast (b : val) (path : string) : M val :=
  getters ← get_prop b "_getters";
  fn ← (if truthy getters then get_prop getters path else mret getters);
  if truthy fn then
    key ← to_key fn;
    m ← get_prop b key;
    invoke m b []
  else get_prop b path.

Definition getPath_fast (b : val) (path : string) : M val :=
  v ← read_fast b path;
  if bool_decide (typeof v = TFunction) then
    c ← checkConstructor v;
    mret (if truthy c then c else v)
  else mret v.

Definition setPath_fast (b : val) (path : string) (value : val) : M val :=
  computed ← get_prop b "_computed";
  c ← (if truthy computed then get_prop computed path else mret VUndef);
  if truthy computed && negb (strict_eq c VUndef) then mret b
  else
    rv ← read_fast b path;
    set_prop b path value;;
    if negb (strict_eq rv value) then
      notifyObservers ← get_prop b "notifyObservers";
      invoke notifyObservers b [VStr path; rv; value];;
      mret b
    else mret b.

End Fast.

(** The object at [b] does not declare [path] computed. *)
Definition not_computed (h : list obj) (b : loc) (path : string) : bool :=
  match field h b "_computed" with
  | VObj lc => strict_eq (field h lc path) VUndef
  | c => negb (truthy c)
  end.

(** [{x: 1, notifyObservers: f}] for the function 7, and the same with x
    set to 2. *)
Definition heap_observed (x : val) : list obj :=
  [{["x" := x; "notifyObservers" := VFun 7]}].

(** [{total: 3, _computed: {total: true}}] *)
Definition heap_computed : list obj :=
  [{["total" := VNum 3; "_computed" := VObj 1]}; {["total" := VBool true]}].


(** ** Calling the closures of bind and bindSafely *)

Section Closures.
Context `{Host}.

(** A call, with arguments [nargs], of what [enyo.bind] or
    [enyo.bindSafely] returned: [method.apply(scope, args.concat(nargs))],
    which the closure of [bindSafely] skips once [scope.destroyed] is
    truthy. *)
Definition call_closure (c : closure) (nargs : list val) : M val :=
  match c with
  | Bound method scope args => invoke method scope (args ++ nargs)
  | BoundSafely method scope args =>
      destroyed ← get_prop scope "destroyed";
      if truthy destroyed then mret VUndef
      else invoke method scope (args ++ nargs)
  end.

End Closures.

(** [{run: f}] for the function 7 *)
Definition heap_run : list obj := [{["run" := VFun 7]}].


(** ** Array helpers

    A JavaScript array is the list of its elements; an array that the
    source updates in place is given by its contents afterwards.  Offsets
    and results are integers. *)

Module Arrays.

Local Open Scope Z_scope.

(** The loop of [indexOf]:
    [for (; offset < len; ++offset) if (this[offset] === el) return offset],
    over the elements from [offset] on. *)
Fixpoint scan (el : val) (rest : list val) (offset : Z) : Z :=
  match rest with
  | x :: rest => if strict_eq x el then offset else scan el rest (offset + 1)
  | [] => -1
  end.

(** [if (offset < 0) offset += len; if (offset < 0) offset = 0] *)
Definition start_offset (len offset : Z) : Z :=
  let offset := if offset <? 0 then offset + len else offset in
  if offset <? 0 then 0 else offset.

(** [Array.prototype.indexOf], for a finite numeric [offset] (0 when the
    argument is left out). *)
Definition indexOf (this : list val) (el : val) (offset : Z) : Z :=
  let len := Z.of_nat (length this) in
  let offset := start_offset len offset in
  scan el (drop (Z.to_nat offset) this) offset.

(** [array[offset]] *)
Definition item (array : list val) (offset : Z) : val :=
  if offset <? 0 then VUndef else default VUndef (array !! Z.to_nat offset).

(** The loop of [lastIndexOf]:
    [for (; offset > -1; --offset) if (array[offset] === el) return offset]. *)
Fixpoint scan_back (el : val) (array : list val) (offset : nat) : Z :=
  if strict_eq (item array (Z.of_nat offset)) el then Z.of_nat offset
  else match offset with
       | S offset => scan_back el array offset
       | O => -1
       end.

(** [Array.prototype.lastIndexOf], for an [offset] left out or a finite
    integer. *)
Definition lastIndexOf (this : list val) (el : val) (offset : option Z) : Z :=
  let len := Z.of_nat (length this) in
  if len =? 0 then -1
  else
    let offset :=
      match offset with
      | Some offset =>
          let offset := if len <? Z.abs offset then len else offset in
          if offset <? 0 then offset + len else offset
      | None => len
      end in
    if -1 <? offset then scan_back el this (Z.to_nat offset) else -1.

(** An argument of [enyo.merge]: [concat] spreads an array and appends
    anything else. *)
Inductive arg : Type :=
  | Arr (elements : list val)
  | Item (v : val).

(** [Array.prototype.concat.apply([], arguments)] *)
Definition concat_args (arguments : list arg) : list val :=
  flat_map (λ a, match a with Arr l => l | Item v => [v] end) arguments.

(** The loop of [enyo.merge]:
    [if (!~ret.indexOf(values[i])) ret.push(values[i])]. *)
Fixpoint merge_loop (values ret : list val) : list val :=
  match values with
  | v :: values =>
      merge_loop values (if indexOf ret v 0 =? -1 then ret ++ [v] else ret)
  | [] => ret
  end.

Definition merge (arguments : list arg) : list val :=
  merge_loop (concat_args arguments) [].

(** The loop of [enyo.cloneArray], [for (; i < l; i++) ret.push(array[i])],
    with the number of rounds left. *)
Fixpoint cloneArray_loop (array : list val) (i : Z) (rounds : nat)
    (ret : list val) : list val :=
  match rounds with
  | S rounds => cloneArray_loop array (i + 1) rounds (ret ++ [item array i])
  | O => ret
  end.

(** [enyo.cloneArray] (and [enyo.toArray]), for an integer [offset] (0 when
    left out); the result is also what [initialArray] holds afterwards. *)
Definition cloneArray (array : list val) (offset : Z)
    (initialArray : option (list val)) : list val :=
  let ret := default [] initialArray in
  let l := Z.of_nat (length array) in
  cloneArray_loop array offset (Z.to_nat (l - offset)) ret.

(** [array.splice(i, 1)]: what [array] holds afterwards. *)
Definition splice (i : nat) (array : list val) : list val :=
  take i array ++ drop (S i) array.

(** [enyo.remove], once its arguments are in the order (array, element):
    what [array], which is returned, holds afterwards. *)
Definition remove (array : list val) (el : val) : list val :=
  let i := indexOf array el 0 in
  if -1 <? i then splice (Z.to_nat i) array else array.

(** No entry is strictly equal to a later one. *)
Definition distinct (array : list val) : Prop :=
  ∀ (i j : nat) x y, (i < j)%nat →
    array !! i = Some x → array !! j = Some y → strict_eq x y = false.

(** The loop of [enyo.only]. *)
Fixpoint only_loop (properties : list string) (object : obj) (ignore : bool)
    (ret : obj) : obj :=
  match properties with
  | prop :: properties =>
      let v := default VUndef (object !! prop) in
      if ignore && (strict_eq v VUndef || strict_eq v VNull)
      then only_loop properties object ignore ret
      else only_loop properties object ignore (<[prop := v]> ret)
  | [] => ret
  end.

(** [enyo.only], for an array of strings and an object without getters. *)
Definition only (properties : list string) (object : obj) (ignore : val) : obj :=
  only_loop properties object (truthy ignore) ∅.

End Arrays.


(** ** Bindings asked for before construction *)

(** What [binding] queues on an owner that is not initialized yet: the
    merged hash with its owner and kind filled in. *)
Definition queued `{BindingSupport.Kinds} (args : list obj) : obj :=
  <["kind" := BindingSupport.kind_of
                (BindingSupport.with_owner (BindingSupport.merged args))]>
    (BindingSupport.with_owner (BindingSupport.merged args)).

(** An owner that has not been constructed and has no array yet. *)
Definition fresh_owner : BindingSupport.owner :=
  {| BindingSupport.bindings := None;
     BindingSupport.bindingSupportInitialized := false;
     BindingSupport.instances := [];
     BindingSupport.log := [] |}.


(** ** Sources and targets that name members of Object.prototype *)

(** [{toString: 1, a: 1}] and [{toString: undefined, a: undefined}] *)
Definition target_toString : obj := {["toString" := VNum 1; "a" := VNum 1]}.
Definition source_undefined : obj := {["toString" := VUndef; "a" := VUndef]}.

(** [{toString: Object.prototype.toString, a: 2}] *)
Definition source_inherited : obj := {["toString" := VFun 31; "a" := VNum 2]}.

(** * Properties *)

(** Unfolds the monad's plumbing. *)
Ltac unfold_St :=
  unfold mbind, St_bind, mret, St_ret, throw, get_heap in *.

(** ** Path strings *)

Lemma strip_only_dots (s : string) :
  only_dots s = true → strip_dots s = "".
Proof.
  induction s as [|c s IH]; simpl; [done|].
  destruct (Ascii.eqb c "."); simpl; [exact IH | discriminate].
Qed.

Lemma leads_with_dot_only_dots (s : string) :
  only_dots s = true → nonempty s = true → leads_with_dot s = true.
Proof.
  destruct s as [|c s]; simpl; [discriminate|].
  destruct (Ascii.eqb c "."); simpl; [done | discriminate].
Qed.

(** ** getPath on degenerate paths *)

(** C10: a falsy path other than null and undefined is returned as it is,
    and a non-empty path made of dots only yields undefined; in both cases
    the state is untouched and the receiver is not looked at (the result is
    the same for every receiver, including those that cannot be
    dereferenced). *)
Theorem getPath_degenerate_path `{Host} (this : val) (s : state) :
  (∀ path, truthy path = false → path ≠ VNull → path ≠ VUndef →
     getPath this path s = Ok path s)
  ∧ (∀ p, nonempty p = true → only_dots p = true →
     getPath this (VStr p) s = Ok VUndef s).
Proof.
  split.
  - intros path Hf Hn Hu. unfold getPath. rewrite Hf.
    destruct path; try done.
  - intros p Hne Hd. unfold getPath. simpl. rewrite Hne. simpl.
    rewrite (leads_with_dot_only_dots p Hd Hne), (strip_only_dots p Hd).
    reflexivity.
Qed.

Lemma getPath_degenerate_path_witness :
  @getPath quiet_host VUndef (VNum 0) (State [] []) = Ok (VNum 0) (State [] [])
  ∧ @getPath quiet_host VUndef (VStr "...") (State [] [])
    = Ok VUndef (State [] []).
Proof.
  destruct (@getPath_degenerate_path quiet_host VUndef (State [] []))
    as [Hfalsy Hdots].
  split; [apply Hfalsy | apply Hdots]; first [reflexivity | discriminate].
Defined.

(** ** bind and bindSafely *)

(** C8: with an object as scope and a method that is neither a function nor
    the name of a function-valued property of the scope, [enyo.bind] and
    [enyo.bindSafely] both end in one of their own [throw] statements,
    leaving the state as it was; neither returns a closure. *)
Theorem bind_rejects_non_function `{Host} (l : loc) (method : val)
    (args : list val) (s : state) :
  typeof method ≠ TFunction →
  (∀ name, method = VStr name → typeof (field (heap s) l name) ≠ TFunction) →
  (∃ msg, bind (VObj l) method args s = Throw (Failure msg) s)
  ∧ (∃ msg, bindSafely (VObj l) method args s = Throw (Failure msg) s).
Proof.
  intros Hm Hn. split.
  - unfold bind. destruct (truthy method) eqn:Ht; simpl.
    + destruct method; try (unfold_St; simpl; eauto; fail); try done.
      unfold_St. simpl.
      destruct (truthy (field (heap s) l s0)); [|eauto].
      rewrite bool_decide_eq_false_2; [eauto|]. by apply Hn.
    + unfold_St. simpl. eauto.
  - unfold bindSafely.
    destruct method; try (unfold_St; simpl; eauto; fail); try done.
    unfold_St. simpl.
    destruct (truthy (field (heap s) l s0)); [|eauto].
    rewrite bool_decide_eq_false_2; [eauto|]. by apply Hn.
Qed.

Lemma bind_rejects_non_function_witness :
  (∃ msg, @bind quiet_host (VObj 0) (VStr "a") []
            (State (heap_a (VNum 3)) [])
          = Throw (Failure msg) (State (heap_a (VNum 3)) []))
  ∧ (∃ msg, bindSafely (VObj 0) (VStr "a") [] (State (heap_a (VNum 3)) [])
            = Throw (Failure msg) (State (heap_a (VNum 3)) [])).
Proof.
  apply (@bind_rejects_non_function quiet_host 0 (VStr "a") []
           (State (heap_a (VNum 3)) [])).
  - discriminate.
  - intros name [= <-]. vm_compute. discriminate.
Defined.

(** ** Heap reasoning *)

Arguments strict_eq : simpl never.
Arguments field : simpl never.
Arguments store : simpl never.

Lemma lookup_snoc_old (h : list obj) (l : loc) (o : obj) (ext : list obj) :
  h !! l = Some o → (h ++ ext) !! l = Some o.
Proof. intros Hl. by apply lookup_app_l_Some. Qed.

Lemma lookup_snoc_new (h : list obj) (o : obj) (ext : list obj) :
  (h ++ o :: ext) !! length h = Some o.
Proof. by rewrite list_lookup_middle. Qed.

Lemma field_old (h ext : list obj) (l : loc) (k : string) :
  l < length h → field (h ++ ext) l k = field h l k.
Proof. intros Hl. unfold field. by rewrite lookup_app_l. Qed.

Lemma field_at (h : list obj) (l : loc) (o : obj) (k : string) :
  h !! l = Some o → field h l k = default VUndef (o !! k).
Proof. intros Hl. unfold field. by rewrite Hl. Qed.

Lemma store_at (h : list obj) (l : loc) (o : obj) (k : string) (x : val) :
  h !! l = Some o → store h l k x = <[l := <[k := x]> o]> h.
Proof. intros Hl. unfold store. by rewrite Hl. Qed.

Lemma store_same (h : list obj) (l : loc) (o : obj) (k : string) (x : val) :
  h !! l = Some o → o !! k = Some x → store h l k x = h.
Proof.
  intros Hl Hk. rewrite (store_at _ _ _ _ _ Hl), insert_id by done.
  by apply list_insert_id.
Qed.

Lemma default_options_force : default_options !! "force" = Some (VBool false).
Proof. reflexivity. Qed.
Lemma default_options_silent : default_options !! "silent" = Some (VBool false).
Proof. reflexivity. Qed.
Lemma default_options_create : default_options !! "create" = Some (VBool true).
Proof. reflexivity. Qed.
Lemma default_options_comparator : default_options !! "comparator" = None.
Proof. reflexivity. Qed.

Lemma strict_eq_ne (v w : val) : v ≠ w → strict_eq v w = false.
Proof.
  intros Hne. unfold strict_eq.
  destruct v, w; try reflexivity; by apply bool_decide_eq_false_2.
Qed.

Lemma strict_eq_refl (v : val) : v ≠ VNaN → strict_eq v v = true.
Proof.
  intros Hne. unfold strict_eq.
  destruct v; try done; by apply bool_decide_eq_true_2.
Qed.

Lemma strict_eq_sound (v w : val) : strict_eq v w = true → v = w.
Proof.
  unfold strict_eq.
  destruct v, w; try discriminate; intros Hb;
    by apply bool_decide_eq_true_1 in Hb.
Qed.

Lemma field_new (h ext : list obj) (o : obj) (k : string) :
  field (h ++ o :: ext) (length h) k = default VUndef (o !! k).
Proof. unfold field. by rewrite lookup_snoc_new. Qed.

(** A heap written [h ++ ext] with the length of [h] known: locations are
    either below that length or an offset into [ext]. *)
Lemma field_app_r (h ext : list obj) (n i : nat) (k : string) :
  length h = n → field (h ++ ext) (n + i) k = field ext i k.
Proof.
  intros <-. unfold field. rewrite lookup_app_r by lia.
  by replace (length h + i - length h) with i by lia.
Qed.

Lemma store_app_r (h ext : list obj) (n i : nat) (k : string) (x : val) :
  length h = n → store (h ++ ext) (n + i) k x = h ++ store ext i k x.
Proof.
  intros <-. unfold store. rewrite lookup_app_r by lia.
  replace (length h + i - length h) with i by lia.
  destruct (ext !! i); [|done]. by rewrite insert_app_r.
Qed.

Lemma store_app_l (h ext : list obj) (l : loc) (k : string) (x : val) :
  l < length h → store (h ++ ext) l k x = store h l k x ++ ext.
Proof.
  intros Hl. unfold store. rewrite lookup_app_l by done.
  destruct (h !! l); [|done]. by rewrite insert_app_l.
Qed.

Lemma field_cons_0 (o : obj) (ext : list obj) (k : string) :
  field (o :: ext) 0 k = default VUndef (o !! k).
Proof. reflexivity. Qed.

Lemma field_cons_S (o : obj) (ext : list obj) (i : nat) (k : string) :
  field (o :: ext) (S i) k = field ext i k.
Proof. reflexivity. Qed.

Lemma store_cons_0 (o : obj) (ext : list obj) (k : string) (x : val) :
  store (o :: ext) 0 k x = <[k := x]> o :: ext.
Proof. reflexivity. Qed.

Lemma store_cons_S (o : obj) (ext : list obj) (i : nat) (k : string)
    (x : val) :
  store (o :: ext) (S i) k x = o :: store ext i k x.
Proof. unfold store. simpl. by destruct (ext !! i). Qed.

(** Evaluates reads and writes on a heap [h ++ ext] with [length h = n]. *)
Ltac heap_run n Hlen :=
  repeat first
    [ rewrite <- app_assoc
    | rewrite length_app
    | rewrite Hlen
    | rewrite (field_app_r _ _ n) by done
    | rewrite (store_app_r _ _ n) by done
    | rewrite field_cons_S | rewrite field_cons_0
    | rewrite store_cons_S | rewrite store_cons_0
    | rewrite insert_empty
    | rewrite lookup_insert_eq
    | rewrite lookup_insert_ne by done
    | rewrite lookup_singleton_eq
    | rewrite lookup_singleton_ne by done
    | rewrite lookup_empty
    | progress simpl ].

Section SetPathSteps.
Context `{Host}.

Lemma own_set_base (base : val) (s : state) :
  base ≠ VNaN → own_set base base s = Ok None s.
Proof. intros Hb. unfold own_set. by rewrite strict_eq_refl by done. Qed.

Lemma own_set_plain (base : val) (l : loc) (s : state) :
  plain_set (heap s) l = true → own_set base (VObj l) s = Ok None s.
Proof.
  unfold plain_set, own_set. intros Hp.
  destruct (strict_eq (VObj l) base); simpl; [done|].
  unfold_St. simpl.
  destruct (truthy (field (heap s) l "set")); simpl in *; [|done].
  by rewrite Hp.
Qed.

Lemma read_was_plain (l : loc) (part : string) (s : state) :
  plain_get (heap s) l = true →
  read_was (VObj l) part s = Ok (field (heap s) l part) s.
Proof.
  unfold plain_get, read_was. intros Hp. unfold_St. simpl.
  destruct (truthy (field (heap s) l "get")); simpl in *; [|done].
  by rewrite Hp.
Qed.

Lemma read_next_plain (base : val) (l : loc) (part : string) (s : state) :
  plain_get (heap s) l = true →
  read_next base (VObj l) part s = Ok (field (heap s) l part) s.
Proof.
  unfold plain_get, read_next. intros Hp.
  destruct (strict_eq (VObj l) base); simpl; [done|].
  unfold_St. simpl.
  destruct (truthy (field (heap s) l "get")); simpl in *; [|done].
  by rewrite Hp.
Qed.

Lemma read_next_base (l : loc) (part : string) (s : state) :
  read_next (VObj l) (VObj l) part s = Ok (field (heap s) l part) s.
Proof. unfold read_next. by rewrite strict_eq_refl by done. Qed.

End SetPathSteps.

(** C3: on an empty root object, [setPath] with path a.b.c and value 5 under
    default options creates the two missing intermediates as fresh objects,
    each holding only the next segment, stores 5 under c, calls nothing and
    returns the root.  The default options literal is the other object the
    call allocates. *)
Theorem setPath_autovivifies `{Host} (O : loc) (s : state) :
  heap s !! O = Some ∅ →
  enyo ≠ VObj O →
  let n := length (heap s) in
  setPath (VObj O) (VStr "a.b.c") (VNum 5) VUndef s =
    Ok (VObj O)
       {| heap := <[O := {["a" := VObj (n + 1)]}]> (heap s)
                  ++ [default_options;
                      {["b" := VObj (n + 2)]};
                      {["c" := VNum 5]}];
          trace := trace s |}.
Proof.
  intros HO Hne n. destruct s as [h t]. simpl in *.
  assert (HOn : O < length h) by (by eapply lookup_lt_Some).
  unfold setPath. simpl.
  rewrite (strict_eq_ne (VObj O) enyo) by congruence.
  unfold_St. unfold alloc, read_opts. simpl.
  rewrite !field_new, default_options_force, default_options_silent,
    default_options_create, default_options_comparator. simpl.
  rewrite own_set_base by done.
  rewrite read_next_base. simpl.
  rewrite (field_old h _ O) by done. rewrite (field_at _ _ _ _ HO).
  rewrite lookup_empty. simpl.
  rewrite <- !app_assoc. simpl.
  rewrite store_app_l by done. rewrite (store_at _ _ _ _ _ HO).
  rewrite insert_empty.
  rewrite !length_app. simpl. fold n.
  set (h' := <[O := _]> h).
  assert (Hlen : length h' = n) by (subst h'; by rewrite length_insert).
  assert (HO1 : VObj (n + 1) ≠ VObj O) by (intros [=]; lia).
  assert (HO2 : VObj (n + 2) ≠ VObj O) by (intros [=]; lia).
  unfold own_set at 1, read_next at 1. rewrite !(strict_eq_ne _ _ HO1).
  unfold_St. heap_run n Hlen.
  unfold read_was. unfold_St. heap_run n Hlen.
  unfold own_set. rewrite (strict_eq_ne _ _ HO2).
  unfold_St. heap_run n Hlen.
  reflexivity.
Qed.

Lemma setPath_autovivifies_witness :
  @setPath quiet_host (VObj 0) (VStr "a.b.c") (VNum 5) VUndef (State [∅] [])
  = Ok (VObj 0)
       (State [{["a" := VObj 2]}; default_options;
               {["b" := VObj 3]}; {["c" := VNum 5]}] []).
Proof.
  apply (@setPath_autovivifies quiet_host 0 (State [∅] []));
    [reflexivity | discriminate].
Defined.

Lemma mixin_defaults_into_empty :
  mixin_src mixinDefaults ∅ default_options = default_options.
Proof. by vm_compute. Qed.

Lemma mixin_no_create :
  mixin_src mixinDefaults default_options {["create" := VBool false]} =
  <["create" := VBool false]> default_options.
Proof. by vm_compute. Qed.

(** C4: with options [{create: false}] on an empty root object, [setPath]
    with path a.b.c assigns nothing: every object of the heap, the root among
    them, is as before (the call only allocates its two option objects),
    nothing is called, and the root is returned. *)
Theorem setPath_no_create `{Host} (O lo : loc) (s : state) :
  heap s !! O = Some ∅ →
  heap s !! lo = Some {["create" := VBool false]} →
  enyo ≠ VObj O →
  setPath (VObj O) (VStr "a.b.c") (VNum 5) (VObj lo) s =
    Ok (VObj O)
       {| heap := heap s ++ [default_options;
                             <["create" := VBool false]> default_options];
          trace := trace s |}.
Proof.
  intros HO Hlo Hne. destruct s as [h t]. simpl in *.
  assert (HOn : O < length h) by (by eapply lookup_lt_Some).
  set (n := length h).
  assert (Hlen : length h = n) by done.
  unfold setPath. simpl.
  rewrite (strict_eq_ne (VObj O) enyo) by congruence.
  unfold_St. unfold alloc, read_opts. simpl.
  rewrite lookup_snoc_new, (lookup_snoc_old _ _ _ _ Hlo).
  rewrite mixin_defaults_into_empty, mixin_no_create.
  replace (length (h ++ [default_options])) with (n + 1)
    by (rewrite length_app; simpl; lia).
  heap_run n Hlen.
  rewrite own_set_base by done. rewrite read_next_base. simpl.
  rewrite (field_old h _ O) by done. rewrite (field_at _ _ _ _ HO).
  rewrite lookup_empty. simpl.
  reflexivity.
Qed.

Lemma setPath_no_create_witness :
  @setPath quiet_host (VObj 0) (VStr "a.b.c") (VNum 5) (VObj 1)
    (State [∅; {["create" := VBool false]}] [])
  = Ok (VObj 0)
       (State [∅; {["create" := VBool false]}; default_options;
               <["create" := VBool false]> default_options] []).
Proof.
  apply (@setPath_no_create quiet_host 0 1
           (State [∅; {["create" := VBool false]}] []));
    [reflexivity | reflexivity | discriminate].
Defined.

(** ** getPath and missing segments *)

Section GetPathFacts.
Context `{Host}.

(** The loop returns the first falsy value it meets, whatever follows. *)
Lemma getPath_loop_stops (this : val) (s : state) (n : val)
    (pre : list string) (s1 : state) (n1 : val) :
  walks this s n pre s1 n1 →
  ∀ (seg : string) (rest : list string) (v : val) (s2 : state)
    (part : string) (parts : list string),
    getPath_step this n1 seg s1 = Ok v s2 →
    truthy v = false →
    all_nonempty (pre ++ [seg]) = true →
    part :: parts = pre ++ seg :: rest →
    getPath_loop this n part parts s = Ok v s2.
Proof.
  induction 1 as [s n | s n seg0 segs v0 sa s' n' Hstep Htr Hw IH];
    intros seg rest v s2 part parts Hmiss Hv Hall Heq; simpl in Heq.
  - injection Heq as -> ->.
    destruct rest; simpl; unfold_St; by rewrite Hmiss, Hv.
  - injection Heq as -> ->.
    simpl in Hall. apply andb_true_iff in Hall as [_ Hall].
    destruct segs as [|x segs]; simpl in *; unfold_St; rewrite Hstep, Htr.
    + pose proof Hall as Hseg. apply andb_true_iff in Hseg as [Hseg _].
      rewrite Hseg. by eapply IH.
    + pose proof Hall as Hx. apply andb_true_iff in Hx as [Hx _].
      rewrite Hx. by eapply IH.
Qed.

(** C1 (as amended): when, indexing by hand, the segments before some
    segment are found truthy and that segment resolves to undefined, and all
    segments up to it are non-empty names, [getPath] returns undefined
    without raising, whatever segments follow. *)
Theorem getPath_missing_segment (this : val) (p : string)
    (pre : list string) (seg : string) (rest : list string)
    (s s1 s2 : state) (n : val) :
  segments p = pre ++ seg :: rest →
  all_nonempty (pre ++ [seg]) = true →
  walks this s (if strict_eq this enyo then global else this) pre s1 n →
  getPath_step this n seg s1 = Ok VUndef s2 →
  getPath this (VStr p) s = Ok VUndef s2.
Proof.
  intros Hseg Hall Hw Hmiss. unfold getPath.
  assert (Hp : nonempty p = true ∧
               nonempty (if leads_with_dot p then strip_dots p else p) = true).
  { unfold segments in Hseg.
    assert (Hfirst : ∀ q, split_dot q = pre ++ seg :: rest → nonempty q = true).
    { intros [|c q] Hq; [|done]. simpl in Hq.
      destruct pre as [|x pre]; simpl in *.
      - injection Hq as <- _. by vm_compute in Hall.
      - injection Hq as <- _. by vm_compute in Hall. }
    split; [|by apply Hfirst].
    destruct p as [|c p]; [by apply (Hfirst "")|done]. }
  destruct Hp as [Hp Hp']. simpl. rewrite Hp. simpl. rewrite Hp'. simpl.
  unfold segments in Hseg.
  destruct (split_dot _) as [|part parts] eqn:Hsplit;
    [by destruct pre|].
  by eapply getPath_loop_stops.
Qed.

End GetPathFacts.

(** C1, counterexample: on [{a: {}}] the path a..b has the intermediate
    segment between its dots absent on the object under a (it resolves to
    undefined there), yet [getPath] returns that object, not undefined. *)
Lemma getPath_empty_segment_counterexample :
  segments "a..b" = ["a"] ++ "" :: ["b"]
  ∧ @walks quiet_host (VObj 0) (State heap_a_empty []) (VObj 0) ["a"]
      (State heap_a_empty []) (VObj 1)
  ∧ @getPath_step quiet_host (VObj 0) (VObj 1) "" (State heap_a_empty [])
      = Ok VUndef (State heap_a_empty [])
  ∧ @getPath quiet_host (VObj 0) (VStr "a..b") (State heap_a_empty [])
      = Ok (VObj 1) (State heap_a_empty [])
  ∧ @getPath quiet_host (VObj 0) (VStr "a..b") (State heap_a_empty [])
      ≠ Ok VUndef (State heap_a_empty []).
Proof.
  split; [reflexivity|]. split.
  { eapply walks_cons; [reflexivity | reflexivity | apply walks_nil]. }
  split; [reflexivity|]. split; [reflexivity|]. discriminate.
Qed.

Lemma getPath_missing_segment_witness :
  @getPath quiet_host (VObj 0) (VStr "a.b.c") (State heap_a_empty [])
  = Ok VUndef (State heap_a_empty []).
Proof.
  apply (@getPath_missing_segment quiet_host (VObj 0) "a.b.c" ["a"] "b" ["c"]
           (State heap_a_empty []) (State heap_a_empty [])
           (State heap_a_empty []) (VObj 1)).
  - reflexivity.
  - reflexivity.
  - eapply walks_cons; [reflexivity | reflexivity | apply walks_nil].
  - reflexivity.
Defined.

(** C5, evaluated: with a falsy value other than undefined under a,
    [getPath] for a.b stops at it and returns that value itself. *)
Theorem getPath_falsy_intermediate_returned :
  Forall (λ v, @getPath quiet_host (VObj 0) (VStr "a.b") (State (heap_a v) [])
               = Ok v (State (heap_a v) []))
         [VNull; VNum 0; VBool false; VStr ""; VNaN].
Proof. repeat constructor. Qed.

(** ** setPath along an existing plain path *)

Lemma field_valid (h : list obj) (l l' : loc) (k : string) :
  field h l k = VObj l' → l < length h.
Proof.
  unfold field. destruct (h !! l) eqn:E; [|done].
  intros _. by eapply lookup_lt_Some.
Qed.

Lemma plain_get_old (h ext : list obj) (l : loc) :
  l < length h → plain_get (h ++ ext) l = plain_get h l.
Proof. intros Hl. unfold plain_get. by rewrite field_old. Qed.

Lemma plain_set_old (h ext : list obj) (l : loc) :
  l < length h → plain_set (h ++ ext) l = plain_set h l.
Proof. intros Hl. unfold plain_set. by rewrite field_old. Qed.

Lemma plain_target_old (h ext : list obj) (base : loc) (segs : list string) :
  ∀ (l T : loc),
    plain_target h base l segs = Some T → T < length h →
    plain_target (h ++ ext) base l segs = Some T.
Proof.
  induction segs as [|seg rest IH]; intros l T Ht HT; simpl in *; [done|].
  destruct (plain_step h base l) eqn:Hs; [|done].
  destruct (field h l seg) as [| | | | | |l'|] eqn:Hf; try done.
  pose proof (field_valid _ _ _ _ Hf) as Hl.
  unfold plain_step in *.
  rewrite plain_get_old, plain_set_old, Hs, field_old, Hf by done.
  by apply IH.
Qed.

Section SetPathWalk.
Context `{Host}.

Lemma own_set_step (h : list obj) (base l : loc) (s : state) :
  heap s = h → plain_step h base l = true →
  own_set (VObj base) (VObj l) s = Ok None s.
Proof.
  intros <- Hs. unfold plain_step in Hs.
  apply orb_true_iff in Hs as [Hb | Hp].
  - apply bool_decide_eq_true_1 in Hb as ->. by apply own_set_base.
  - apply andb_true_iff in Hp as [_ Hp]. by apply own_set_plain.
Qed.

Lemma read_next_step (h : list obj) (base l : loc) (part : string)
    (s : state) :
  heap s = h → plain_step h base l = true →
  read_next (VObj base) (VObj l) part s = Ok (field h l part) s.
Proof.
  intros <- Hs. unfold plain_step in Hs.
  apply orb_true_iff in Hs as [Hb | Hp].
  - apply bool_decide_eq_true_1 in Hb as ->. by apply read_next_base.
  - apply andb_true_iff in Hp as [Hp _]. by apply read_next_plain.
Qed.

(** The loop of [setPath] along an existing plain path reaches the target
    with the old value read from it, and changes nothing. *)
Lemma setPath_loop_plain (base : loc) (is_ opts create : val)
    (last : string) (s : state) (init : list string) :
  ∀ (l T : loc) (part : string) (parts : list string),
    plain_target (heap s) base l init = Some T →
    plain_last (heap s) base T = true →
    all_nonempty (init ++ [last]) = true →
    part :: parts = init ++ [last] →
    setPath_loop (VObj base) is_ opts create (VObj l) part parts s =
      Ok (Reached (VObj T) last (field (heap s) T last)) s.
Proof.
  induction init as [|seg rest IH]; intros l T part parts Ht Hl Hall Heq;
    simpl in Heq; injection Heq as -> ->; simpl in Ht.
  - injection Ht as ->. simpl. unfold_St.
    apply andb_true_iff in Hl as [Hg _].
    by rewrite read_was_plain.
  - destruct (plain_step (heap s) base l) eqn:Hs; [|done].
    destruct (field (heap s) l seg) as [| | | | | |l'|] eqn:Hf; try done.
    simpl in Hall. apply andb_true_iff in Hall as [_ Hall].
    assert (Hhead : ∃ p ps, rest ++ [last] = p :: ps ∧ nonempty p = true).
    { destruct rest as [|x rest]; simpl in *;
        apply andb_true_iff in Hall as [Hx _]; eauto. }
    destruct Hhead as (p & ps & Hps & Hp).
    rewrite Hps. simpl. unfold_St.
    rewrite (own_set_step (heap s) base l) by done.
    rewrite (read_next_step (heap s) base l) by done.
    rewrite Hf. simpl. rewrite Hp.
    by apply IH.
Qed.

End SetPathWalk.

Section SetPathDefault.
Context `{Host}.

Lemma own_set_last (h : list obj) (base l : loc) (s : state) :
  heap s = h → plain_last h base l = true →
  own_set (VObj base) (VObj l) s = Ok None s.
Proof.
  intros <- Hs. unfold plain_last in Hs.
  apply andb_true_iff in Hs as [_ Hs].
  apply orb_true_iff in Hs as [Hb | Hp].
  - apply bool_decide_eq_true_1 in Hb as ->. by apply own_set_base.
  - by apply own_set_plain.
Qed.

Lemma plain_last_old (h ext : list obj) (base l : loc) :
  l < length h → plain_last (h ++ ext) base l = plain_last h base l.
Proof.
  intros Hl. unfold plain_last. by rewrite plain_get_old, plain_set_old.
Qed.

(** With a third argument that is not an object (the default options, with
    the argument as positional force flag), along an existing plain path,
    [setPath] writes the value on the target and calls the target's
    [notify], if it has one, when the flag is truthy or the old value
    differs from the new one. *)
Lemma setPath_plain_flag (O T : loc) (p : string) (init : list string)
    (last : string) (V flag : val) (s : state) :
  typeof flag ≠ TObject →
  enyo ≠ VObj O →
  segments p = init ++ [last] →
  all_nonempty (init ++ [last]) = true →
  plain_target (heap s) O O init = Some T →
  plain_last (heap s) O T = true →
  T < length (heap s) →
  let was := field (heap s) T last in
  let hw := store (heap s ++ [default_options]) T last V in
  let notify := field hw T "notify" in
  setPath (VObj O) (VStr p) V flag s =
    if truthy notify && (truthy flag || negb (strict_eq was V)) then
      match invoke notify (VObj T)
              [VStr last; was; V; VObj (length (heap s))]
              {| heap := hw; trace := trace s |} with
      | Ok _ s' => Ok (VObj O) s'
      | Throw e s' => Throw e s'
      end
    else Ok (VObj O) {| heap := hw; trace := trace s |}.
Proof.
  intros Hflag Hne Hseg Hall Ht Hl HT was hw notify.
  destruct s as [h t]. simpl in *.
  assert (Hp : nonempty p = true
             ∧ nonempty (if leads_with_dot p then strip_dots p else p) = true).
  { unfold segments in Hseg.
    assert (Hfirst : ∀ q, split_dot q = init ++ [last] → nonempty q = true).
    { intros [|c q] Hq; [|done]. simpl in Hq.
      destruct init as [|x init]; simplify_eq/=; by vm_compute in Hall. }
    split; [|by apply Hfirst].
    destruct p as [|c p]; [by apply (Hfirst "")|done]. }
  destruct Hp as [Hp Hp'].
  unfold setPath. simpl. rewrite Hp. simpl.
  rewrite (strict_eq_ne (VObj O) enyo) by congruence.
  unfold_St. unfold alloc, read_opts.
  rewrite (bool_decide_eq_false_2 _ Hflag). simpl.
  rewrite !field_new, default_options_force, default_options_silent,
    default_options_create, default_options_comparator. simpl.
  rewrite Hp'. simpl. unfold segments in Hseg.
  destruct (split_dot _) as [|part parts] eqn:Hsplit; [by destruct init|].
  rewrite (setPath_loop_plain O V (VObj (length h)) (VBool true) last
             {| heap := h ++ [default_options]; trace := t |} init O T)
    by (simpl; first [by apply plain_target_old
                     | by rewrite plain_last_old | done]).
  unfold setPath_finish. unfold_St. cbn [truthy negb].
  rewrite (own_set_last (h ++ [default_options]) O T)
    by (simpl; first [done | by rewrite plain_last_old]).
  unfold_St. simpl.
  rewrite (field_old h _ T) by done.
  fold was. fold hw. fold notify.
  destruct (truthy notify); simpl; [|done].
  unfold changed. simpl.
  destruct (truthy flag || negb (strict_eq was V)); simpl; [|done].
  unfold_St. by destruct (invoke notify _ _ _).
Qed.

End SetPathDefault.

Section SetPathTwice.
Context `{Host}.

(** On a path that already holds the value, a default [setPath] changes no
    object and calls nothing. *)
Lemma setPath_settled (O : loc) (p : string) (init : list string)
    (last : string) (V : val) (s : state) :
  enyo ≠ VObj O →
  segments p = init ++ [last] →
  all_nonempty (init ++ [last]) = true →
  V ≠ VNaN →
  settled (heap s) O init last V = true →
  setPath (VObj O) (VStr p) V VUndef s =
    Ok (VObj O) {| heap := heap s ++ [default_options]; trace := trace s |}.
Proof.
  intros Hne Hseg Hall HV Hs. unfold settled in Hs.
  destruct (plain_target (heap s) O O init) as [T|] eqn:Ht; [|done].
  apply andb_true_iff in Hs as [Hl Hown].
  apply bool_decide_eq_true_1 in Hown. unfold own in Hown.
  destruct (heap s !! T) as [o|] eqn:HT; [|done]. simpl in Hown.
  assert (HTn : T < length (heap s)) by (by eapply lookup_lt_Some).
  rewrite (setPath_plain_flag O T p init last V VUndef s) by done.
  rewrite (field_at _ _ _ _ HT), Hown. simpl.
  rewrite (strict_eq_refl V HV), andb_false_r.
  rewrite store_app_l by done. by rewrite (store_same _ _ _ _ _ HT Hown).
Qed.

(** C2 (as amended): for a value other than NaN, a root that is not the
    [enyo] object and a path of non-empty segments that exists through plain
    nodes (every node walked through holds an object under its segment and,
    unless it is the root, has a plain [get] and [set]; the target has a
    plain [get], also when it is the root, and unless it is the root a plain
    [set]), when the target holds a different value and, once the value
    is written, has a [notify] function that returns and leaves the path in
    that condition with the target holding the new value, two default
    [setPath] calls in a row both return the root; the first writes the
    value and calls [notify] once, the second calls nothing and changes no
    object of the heap (it only allocates its options literal). *)
Theorem setPath_twice_notifies_once (O T : loc) (p : string)
    (init : list string) (last : string) (V r : val) (f : fid) (s : state)
    (h1 : list obj) :
  let was := field (heap s) T last in
  let hw := store (heap s ++ [default_options]) T last V in
  let args := [VStr last; was; V; VObj (length (heap s))] in
  enyo ≠ VObj O →
  segments p = init ++ [last] →
  all_nonempty (init ++ [last]) = true →
  V ≠ VNaN →
  plain_target (heap s) O O init = Some T →
  plain_last (heap s) O T = true →
  T < length (heap s) →
  strict_eq was V = false →
  field hw T "notify" = VFun f →
  call f (VObj T) args hw = Returns r h1 →
  settled h1 O init last V = true →
  let s1 := {| heap := h1; trace := trace s ++ [Call f (VObj T) args] |} in
  setPath (VObj O) (VStr p) V VUndef s = Ok (VObj O) s1
  ∧ setPath (VObj O) (VStr p) V VUndef s1 =
      Ok (VObj O) {| heap := h1 ++ [default_options]; trace := trace s1 |}.
Proof.
  intros was hw args Hne Hseg Hall HV Ht Hl HT Hwas Hnotify Hcall Hs s1.
  split.
  - rewrite (setPath_plain_flag O T p init last V VUndef s) by done.
    fold was hw. rewrite Hnotify, Hwas. simpl.
    fold args. by rewrite Hcall.
  - by rewrite (setPath_settled O p init last V s1).
Qed.

End SetPathTwice.

(** C2, counterexample: on [{notify: f}] with the quiet host, setting x to
    NaN twice under default options calls [notify] on both calls, since NaN
    differs from itself. *)
Lemma setPath_twice_NaN_counterexample :
  @setPath quiet_host (VObj 0) (VStr "x") VNaN VUndef (State heap_notify [])
    = Ok (VObj 0) (State heap_notify_NaN [notify_NaN_1])
  ∧ @setPath quiet_host (VObj 0) (VStr "x") VNaN VUndef
      (State heap_notify_NaN [notify_NaN_1])
    = Ok (VObj 0) (State (heap_notify_NaN ++ [default_options])
                         [notify_NaN_1; notify_NaN_2]).
Proof. split; by vm_compute. Qed.

Lemma setPath_twice_notifies_once_witness :
  @setPath quiet_host (VObj 0) (VStr "a.x") (VNum 5) VUndef
    (State heap_a_notify [])
    = Ok (VObj 0) (State heap_a_notify_5 [notify_5])
  ∧ @setPath quiet_host (VObj 0) (VStr "a.x") (VNum 5) VUndef
      (State heap_a_notify_5 [notify_5])
    = Ok (VObj 0) (State (heap_a_notify_5 ++ [default_options]) [notify_5]).
Proof.
  apply (@setPath_twice_notifies_once quiet_host 0 1 "a.x" ["a"] "x"
           (VNum 5) VUndef 7 (State heap_a_notify []));
    first [reflexivity | discriminate | simpl; lia].
Defined.

(** ** The positional force flag *)

Section ForceFlag.
Context `{Host}.

Lemma changed_truthy (f1 f2 comparator was is_ : val) :
  truthy f1 = truthy f2 →
  changed f1 comparator was is_ = changed f2 comparator was is_.
Proof. intros Hf. unfold changed. by rewrite Hf. Qed.

Lemma setPath_finish_truthy (base is_ opts f1 f2 silent comparator : val)
    (w : walk) :
  truthy f1 = truthy f2 →
  setPath_finish base is_ opts f1 silent comparator w =
  setPath_finish base is_ opts f2 silent comparator w.
Proof.
  intros Hf. unfold setPath_finish. destruct w; [done|].
  by rewrite (changed_truthy f1 f2).
Qed.

(** A third argument that is not an object only matters through its truth
    value. *)
Lemma setPath_flag_truthy (this path is_ f1 f2 : val) (s : state) :
  typeof f1 ≠ TObject → typeof f2 ≠ TObject →
  truthy f1 = truthy f2 →
  setPath this path is_ f1 s = setPath this path is_ f2 s.
Proof.
  intros H1 H2 Hf. unfold setPath.
  destruct (negb (truthy path) || _); [done|].
  unfold_St. unfold alloc, read_opts.
  rewrite (bool_decide_eq_false_2 _ H1), (bool_decide_eq_false_2 _ H2).
  simpl. rewrite !field_new, default_options_force. simpl.
  destruct path; try done.
  destruct (negb (nonempty _)); [done|].
  destruct (split_dot _); [done|].
  destruct (setPath_loop _ _ _ _ _ _ _ _); [|done].
  by rewrite (setPath_finish_truthy _ _ _ f1 f2).
Qed.

End ForceFlag.

(** C9, evaluated: on [{a: {set: f7, notify: f8, x: 5}}], where [set] hands
    over to [setPath] on its receiver, setting a.x to its current value 5
    with the positional flag [true] gives the node's [set] the default
    options, whose [force] is false, and its [notify] does not run; with the
    options object [{force: true}] the node's [set] is given options whose
    [force] is true, and its [notify] runs. *)
Theorem setPath_positional_force_not_delegated :
  let s := State heap_delegate [] in
  let positional :=
    @setPath delegating_host (VObj 0) (VStr "a.x") (VNum 5) (VBool true) s in
  let by_options :=
    @setPath delegating_host (VObj 0) (VStr "a.x") (VNum 5) (VObj 2) s in
  returned positional = Some (VObj 0)
  ∧ trace (final positional) = [Call 7 (VObj 1) [VStr "x"; VNum 5; VObj 3]]
  ∧ field (heap (final positional)) 3 "force" = VBool false
  ∧ field (heap (final positional)) 1 "notified" = VUndef
  ∧ returned by_options = Some (VObj 0)
  ∧ trace (final by_options) = [Call 7 (VObj 1) [VStr "x"; VNum 5; VObj 4]]
  ∧ field (heap (final by_options)) 4 "force" = VBool true
  ∧ field (heap (final by_options)) 1 "notified" = VBool true.
Proof. repeat split; by vm_compute. Qed.

(** ** The merge, key by key *)

(** What the merge leaves under one key, given what the target and the
    source hold there. *)
Lemma mixin_src_lookup (o : mixin_flags) (ret src : obj) (k : string) :
  mixin_src o ret src !! k =
    match src !! k with
    | Some v =>
        if negb (strict_eq (empty k) v)
           && (negb (mx_exists o) || truthy v)
           && (negb (mx_ignore o) || negb (truthy (reads ret k)))
        then Some v else ret !! k
    | None => ret !! k
    end.
Proof.
  unfold mixin_src.
  apply (map_fold_weak_ind
           (λ r m, r !! k = match m !! k with
                            | Some v =>
                                if negb (strict_eq (empty k) v)
                                   && (negb (mx_exists o) || truthy v)
                                   && (negb (mx_ignore o)
                                       || negb (truthy (reads ret k)))
                                then Some v else ret !! k
                            | None => ret !! k
                            end)).
  - by rewrite lookup_empty.
  - intros i x m r Hi IH. unfold mixin_key.
    destruct (decide (i = k)) as [->|Hne].
    + rewrite lookup_insert_eq. rewrite Hi in IH.
      assert (Hr : reads r k = reads ret k)
        by (unfold reads; by rewrite IH).
      rewrite Hr.
      destruct (negb (strict_eq (empty k) x)); simpl; [|done].
      destruct (_ && _); [by rewrite lookup_insert_eq | done].
    + rewrite lookup_insert_ne by done.
      destruct (negb (strict_eq (empty i) x)); [|done].
      destruct (_ && _); [by rewrite lookup_insert_ne | done].
Qed.

(** ** BindingSupport *)

Module BindingSupportFacts.
Import BindingSupport.

Ltac unfold_B :=
  unfold_St;
  unfold get_owner, set_bindings, set_initialized, set_instances, emit in *.

Section Facts.
Context `{Kinds}.

(** One declaration instantiated on an initialized owner. *)
Lemma binding_live (d : obj) (w : owner) (acc : list entry) :
  bindings w = Some acc →
  bindingSupportInitialized w = true →
  constructible d = true →
  binding [d] w =
    Ok (Instance (length (instances w)))
       {| bindings := Some (acc ++ [Live (length (instances w))]);
          bindingSupportInitialized := true;
          instances := instances w ++ [instance_of d];
          log := log w ++ [construction_of d] |}.
Proof.
  intros Hb Hi Hc. unfold constructible in Hc.
  unfold binding, construct, push. unfold_B. simpl.
  rewrite Hb, Hi. simpl. by rewrite Hc.
Qed.

Lemma forEach_declarations (decls : list obj) :
  ∀ (w : owner) (acc : list entry),
    bindings w = Some acc →
    bindingSupportInitialized w = true →
    forallb constructible decls = true →
    forEach (λ def, match def with
                    | Raw d => binding [d];; mret tt
                    | Live _ => throw OutsideModel
                    end) (map Raw decls) w =
      Ok tt {| bindings :=
                 Some (acc ++ map Live (seq (length (instances w))
                                            (length decls)));
               bindingSupportInitialized := true;
               instances := instances w ++ map instance_of decls;
               log := log w ++ map construction_of decls |}.
Proof.
  induction decls as [|d decls IH]; intros w acc Hb Hi Hall; simpl.
  - unfold_St. rewrite !app_nil_r. destruct w; simpl in *. by subst.
  - simpl in Hall. apply andb_true_iff in Hall as [Hd Hall].
    unfold_St. rewrite (binding_live d w acc) by done.
    etransitivity; [apply (IH _ (acc ++ [Live (length (instances w))]));
                    by simpl|].
    simpl. rewrite length_app. simpl.
    rewrite <- !app_assoc. simpl.
    by replace (length (instances w) + 1) with (S (length (instances w)))
      by lia.
Qed.

(** A single declaration merges into the keys it sets. *)
Lemma merged_described (d : obj) : merged [d] = described_keys d.
Proof.
  apply map_eq. intros k. unfold merged, described_keys. simpl.
  rewrite mixin_src_lookup, map_lookup_filter, lookup_empty.
  destruct (d !! k) as [v|]; [|done]. cbn [mbind option_bind].
  destruct (strict_eq (empty k) v) eqn:Hv; cbn [negb andb orb mx_exists
    mx_ignore mixinDefaults]; case_guard as Hg; simpl in Hg;
    [congruence|done|done|by destruct Hg].
Qed.

Lemma prop_described_keys (d : obj) (k : string) :
  empty k = VUndef → prop (described_keys d) k = prop d k.
Proof.
  intros Hk. unfold prop, described_keys. rewrite map_lookup_filter.
  destruct (d !! k) as [v|]; [|done]. cbn [mbind option_bind].
  case_guard as Hg; simpl in Hg; [done|]. simpl.
  destruct (strict_eq (empty k) v) eqn:Hv; [|done].
  apply strict_eq_sound in Hv. congruence.
Qed.

Lemma with_owner_described (d : obj) :
  with_owner (merged [d]) = <["owner" := described_owner d]> (described_keys d).
Proof.
  unfold with_owner, described_owner, or_else.
  by rewrite merged_described, prop_described_keys.
Qed.

Lemma declared_ctor_described (d : obj) :
  declared_ctor [d] = described_kind d.
Proof.
  unfold declared_ctor, described_kind, kind_of, ctor_of, or_else.
  rewrite with_owner_described.
  assert (prop (<["owner" := described_owner d]> (described_keys d)) "kind"
          = prop d "kind") as ->.
  { unfold prop at 1. rewrite lookup_insert_ne by done.
    by apply prop_described_keys. }
  destruct (truthy (prop d "kind")) eqn:Hk; [by rewrite Hk|].
  by destruct (truthy own_defaultBindingKind) eqn:Ho; rewrite ?Ho.
Qed.

Lemma declared_props_described (d : obj) :
  declared_props [d] = described_fields d.
Proof.
  unfold declared_props, described_fields.
  by rewrite declared_ctor_described, with_owner_described.
Qed.

(** C6: when the owner's array holds N raw declarations whose kinds resolve
    to constructors, [constructed] sets the initialized flag, builds one
    Binding per declaration, once each and in declaration order, each by the
    declaration's kind and with the declaration's keys, the owner and the
    constructor as its fields, leaves the array holding exactly these N
    instances and no raw declaration, and then runs the inherited
    [constructed] on that state. *)
Theorem constructed_instantiates_declarations (decls : list obj)
    (w : owner) :
  bindings w = Some (map Raw decls) →
  forallb (λ d, bool_decide (typeof (described_kind d) = TFunction)) decls
    = true →
  constructed w =
    sup_constructed
      {| bindings := Some (map Live (seq (length (instances w))
                                         (length decls)));
         bindingSupportInitialized := true;
         instances := instances w ++ map described_instance decls;
         log := log w ++ map described_construction decls |}.
Proof.
  intros Hb Hall.
  assert (forallb constructible decls = true) as Hall'.
  { clear Hb. induction decls as [|d decls IH]; simpl in *; [done|].
    apply andb_true_iff in Hall as [Hd Hall]. unfold constructible at 1.
    rewrite declared_ctor_described, Hd. by apply IH. }
  assert (map instance_of decls = map described_instance decls) as Hi.
  { apply map_ext. intros d. unfold instance_of, described_instance.
    by rewrite declared_props_described. }
  assert (map construction_of decls = map described_construction decls)
    as Hc.
  { apply map_ext. intros d. unfold construction_of, described_construction.
    by rewrite declared_ctor_described, declared_props_described. }
  unfold constructed. unfold_B. simpl. rewrite Hb.
  rewrite (forEach_declarations decls _ []) by done. simpl.
  by rewrite Hi, Hc.
Qed.

(** Destroying one existing Binding of an owner whose array is set. *)
Lemma Binding_destroy_spec (b : nat) (w : owner) (l : list entry) :
  bindings w = Some l →
  b < length (instances w) →
  ∃ w', Binding_destroy b w = Ok tt w'
        ∧ is_Some (bindings w')
        ∧ length (instances w') = length (instances w)
        ∧ log w' = log w ++ [Destroyed b]
        ∧ is_destroyed w' b = true
        ∧ (∀ b', is_destroyed w b' = true → is_destroyed w' b' = true).
Proof.
  intros Hb Hlt.
  destruct (lookup_lt_is_Some_2 _ _ Hlt) as [i Hi].
  unfold Binding_destroy. unfold_B. rewrite Hi. simpl.
  destruct (strict_eq (prop (fields i) "owner") self) eqn:Hown.
  - unfold removeBinding. unfold_B. simpl. rewrite Hb, Hi, Hown. simpl.
    rewrite list_lookup_insert_eq by done. simpl.
    eexists. split; [reflexivity|]. simpl.
    split; [by eexists|]. split; [by rewrite !length_insert|].
    split; [done|]. split.
    + unfold is_destroyed. simpl.
      by rewrite list_lookup_insert_eq by (by rewrite length_insert).
    + intros b' Hd. unfold is_destroyed in *. simpl.
      destruct (decide (b = b')) as [<-|Hne].
      * by rewrite list_lookup_insert_eq by (by rewrite length_insert).
      * by rewrite !list_lookup_insert_ne.
  - simpl. rewrite Hi.
    eexists. split; [reflexivity|]. simpl.
    split; [by eexists|]. split; [by rewrite length_insert|].
    split; [done|]. split.
    + unfold is_destroyed. simpl. by rewrite list_lookup_insert_eq.
    + intros b' Hd. unfold is_destroyed in *. simpl.
      destruct (decide (b = b')) as [<-|Hne].
      * by rewrite list_lookup_insert_eq.
      * by rewrite list_lookup_insert_ne.
Qed.

Lemma forEach_destroy (bs : list nat) :
  ∀ (w : owner) (l : list entry),
    bindings w = Some l →
    existing w bs = true →
    ∃ w', forEach entry_destroy (map Live bs) w = Ok tt w'
          ∧ is_Some (bindings w')
          ∧ length (instances w') = length (instances w)
          ∧ log w' = log w ++ map Destroyed bs
          ∧ (∀ b, b ∈ bs → is_destroyed w' b = true)
          ∧ (∀ b, is_destroyed w b = true → is_destroyed w' b = true).
Proof.
  induction bs as [|b bs IH]; intros w l Hb Hex; simpl.
  - exists w. unfold_St. rewrite app_nil_r.
    repeat split; try done. intros b Hin. by apply elem_of_nil in Hin.
  - unfold existing in Hex. simpl in Hex.
    apply andb_true_iff in Hex as [Hlt Hex].
    apply bool_decide_eq_true_1 in Hlt.
    destruct (Binding_destroy_spec b w l Hb Hlt)
      as (w1 & Hrun & [l1 Hb1] & Hlen1 & Hlog1 & Hd1 & Hkeep1).
    destruct (IH w1 l1 Hb1) as (w' & Hrun' & Hb' & Hlen' & Hlog' & Hd' & Hkeep').
    { unfold existing. by rewrite Hlen1. }
    exists w'. unfold_St. rewrite Hrun. 
    split; [exact Hrun'|]. split; [done|]. split; [congruence|].
    split; [by rewrite Hlog', Hlog1, <- app_assoc|]. split.
    + intros b' Hin. apply elem_of_cons in Hin as [->|Hin]; auto.
    + auto.
Qed.

(** C7: once the inherited [destroy] has returned, [destroy] calls the
    destroy method of every Binding in the owner's array, once each and in
    order, so that each of them is destroyed, and then sets the array to
    null. *)
Theorem destroy_destroys_bindings (bs : list nat) (w w0 : owner) :
  sup_destroy w = Ok tt w0 →
  bindings w0 = Some (map Live bs) →
  existing w0 bs = true →
  ∃ w', destroy w = Ok tt w'
        ∧ bindings w' = None
        ∧ log w' = log w0 ++ map Destroyed bs
        ∧ (∀ b, b ∈ bs → is_destroyed w' b = true).
Proof.
  intros Hsup Hb Hex. unfold destroy. unfold_B. rewrite Hsup, Hb.
  destruct bs as [|b bs].
  - simpl. eexists. split; [reflexivity|]. simpl. rewrite app_nil_r.
    repeat split. intros b Hin. by apply elem_of_nil in Hin.
  - destruct (forEach_destroy (b :: bs) w0 _ Hb Hex)
      as (w' & Hrun & _ & _ & Hlog & Hd & _).
    cbn [map]. unfold clearBindings. unfold_B. rewrite Hb, Hrun.
    eexists. split; [reflexivity|]. simpl. repeat split; [done|].
    intros b' Hin. specialize (Hd b' Hin). unfold is_destroyed in *.
    by simpl.
Qed.

End Facts.

Lemma constructed_instantiates_declarations_witness :
  @constructed plain_kinds queued_owner = Ok tt live_owner.
Proof.
  rewrite (@constructed_instantiates_declarations plain_kinds
             two_declarations queued_owner); reflexivity.
Defined.

Lemma destroy_destroys_bindings_witness :
  ∃ w', @destroy plain_kinds live_owner = Ok tt w'
        ∧ bindings w' = None
        ∧ log w' = log live_owner ++ map Destroyed [0; 1]
        ∧ (∀ b, b ∈ [0; 1] → is_destroyed w' b = true).
Proof.
  apply (@destroy_destroys_bindings plain_kinds [0; 1] live_owner live_owner);
    reflexivity.
Defined.

End BindingSupportFacts.

(** * Further properties *)

(** ** enyo.mixin *)

(** X1: under the default flags, for a source that has no property named
    [__proto__], [mixin] gives every key the source's value where the source
    defines one that is not strictly equal to what an empty object reads
    under that key (undefined, or for the names of [Object.prototype] the
    inherited member), and the target's value everywhere else; the order in
    which the keys are visited does not matter. *)
Theorem mixin_defaults_lookup (ret src : obj) (k : string) :
  src !! "__proto__" = None →
  mixin_src mixinDefaults ret src !! k =
    match src !! k with
    | Some v => if strict_eq (empty k) v then ret !! k else Some v
    | None => ret !! k
    end.
Proof.
  intros _. rewrite mixin_src_lookup. simpl.
  destruct (src !! k) as [v|]; [|done].
  rewrite andb_true_r. by destruct (strict_eq (empty k) v).
Qed.

(** X2: with the [ignore] flag, for a source that has no property named
    [__proto__], a key under which the target reads a truthy value (its own
    or, for the names of [Object.prototype], the inherited member) is left
    as it is, whereas one under which it reads a falsy value (false, 0,
    NaN, the empty string, null, undefined) is given whatever value the source holds
    there that is not strictly equal to what an empty object reads under
    that key. *)
Theorem mixin_ignore_lookup (ret src : obj) (k : string) :
  src !! "__proto__" = None →
  mixin_src {| mx_exists := false; mx_ignore := true |} ret src !! k =
    if truthy (reads ret k) then ret !! k
    else match src !! k with
         | Some v => if strict_eq (empty k) v then ret !! k else Some v
         | None => ret !! k
         end.
Proof.
  intros _. rewrite mixin_src_lookup. simpl.
  destruct (src !! k) as [v|]; [|by destruct (truthy _)].
  destruct (truthy (reads ret k)); simpl.
  - by rewrite andb_false_r.
  - rewrite andb_true_r. by destruct (strict_eq (empty k) v).
Qed.

Lemma mixin_defaults_lookup_witness :
  mixin_src mixinDefaults target_toString source_undefined !! "toString"
  = Some VUndef
  ∧ mixin_src mixinDefaults target_toString source_undefined !! "a"
    = Some (VNum 1).
Proof.
  split.
  - rewrite (mixin_defaults_lookup target_toString source_undefined
               "toString"); reflexivity.
  - rewrite (mixin_defaults_lookup target_toString source_undefined "a");
      reflexivity.
Defined.

Lemma mixin_ignore_lookup_witness :
  mixin_src {| mx_exists := false; mx_ignore := true |}
    {["a" := VNum 0]} source_inherited !! "toString" = None
  ∧ mixin_src {| mx_exists := false; mx_ignore := true |}
      {["a" := VNum 0]} source_inherited !! "a" = Some (VNum 2).
Proof.
  split.
  - rewrite (mixin_ignore_lookup {["a" := VNum 0]} source_inherited
               "toString"); reflexivity.
  - rewrite (mixin_ignore_lookup {["a" := VNum 0]} source_inherited "a");
      reflexivity.
Defined.

(** ** enyo.clone *)

(** X3: the plain copy of an object is a fresh object on which every
    property reads as on the original, the members inherited from
    [Object.prototype] included; no existing object is touched and nothing
    is called. *)
Theorem clone_reads_alike (l : loc) (o : obj) (s : state) :
  heap s !! l = Some o →
  ∃ copy,
    clone (VObj l) VUndef s =
      Ok (VObj (length (heap s)))
         {| heap := heap s ++ [copy]; trace := trace s |}
    ∧ (∀ k, reads copy k = reads o k)
    ∧ (∀ k, empty k = VUndef →
         field (heap s ++ [copy]) (length (heap s)) k = field (heap s) l k).
Proof.
  intros Hl.
  assert (∀ k, reads (mixin_src mixinDefaults ∅ o) k = reads o k) as Hreads.
  { intros k. unfold reads. rewrite mixin_src_lookup, lookup_empty. simpl.
    destruct (o !! k) as [v|]; [|done]. simpl. rewrite andb_true_r.
    destruct (strict_eq (empty k) v) eqn:Hv; [|done]. simpl.
    by apply strict_eq_sound in Hv. }
  eexists. split; [|split].
  - unfold clone. simpl. unfold_St. unfold alloc. simpl. by rewrite Hl.
  - done.
  - intros k Hk. rewrite field_new, (field_at _ _ _ _ Hl). simpl.
    specialize (Hreads k). unfold reads in Hreads. by rewrite Hk in Hreads.
Qed.

Lemma clone_reads_alike_witness :
  ∃ copy,
    clone (VObj 0) VUndef (State (heap_a (VNum 3)) []) =
      Ok (VObj 1) (State (heap_a (VNum 3) ++ [copy]) [])
    ∧ (∀ k, reads copy k = reads {["a" := VNum 3]} k)
    ∧ (∀ k, empty k = VUndef →
         field (heap_a (VNum 3) ++ [copy]) 1 k = field (heap_a (VNum 3)) 0 k).
Proof.
  apply (clone_reads_alike 0 {["a" := VNum 3]}
           (State (heap_a (VNum 3)) [])).
  reflexivity.
Defined.

(** ** setPath with an options object *)

Section SetPathOptions.
Context `{Host}.

(** Along an existing plain path, with an options object: the write, then
    the decision to notify as the source takes it. *)
Lemma setPath_plain_object (O T lo : loc) (o : obj) (p : string)
    (init : list string) (last : string) (V : val) (s : state) :
  heap s !! lo = Some o →
  enyo ≠ VObj O →
  segments p = init ++ [last] →
  all_nonempty (init ++ [last]) = true →
  plain_target (heap s) O O init = Some T →
  plain_last (heap s) O T = true →
  T < length (heap s) →
  let opts := VObj (length (heap s) + 1) in
  let was := field (heap s) T last in
  let hw := store (heap s ++ [default_options; merged_options o]) T last V in
  let notify := field hw T "notify" in
  let force := if truthy (setting o "force") then VBool true else VUndef in
  setPath (VObj O) (VStr p) V (VObj lo) s =
    match (if truthy notify && negb (truthy (setting o "silent"))
           then changed force (setting o "comparator") was V
           else mret false) {| heap := hw; trace := trace s |} with
    | Ok true s' =>
        match invoke notify (VObj T) [VStr last; was; V; opts] s' with
        | Ok _ s'' => Ok (VObj O) s''
        | Throw e s'' => Throw e s''
        end
    | Ok false s' => Ok (VObj O) s'
    | Throw e s' => Throw e s'
    end.
Proof.
  intros Hlo Hne Hseg Hall Ht Hl HT opts was hw notify force.
  destruct s as [h t]. simpl in *.
  assert (Hp : nonempty p = true
             ∧ nonempty (if leads_with_dot p then strip_dots p else p) = true).
  { unfold segments in Hseg.
    assert (Hfirst : ∀ q, split_dot q = init ++ [last] → nonempty q = true).
    { intros [|c q] Hq; [|done]. simpl in Hq.
      destruct init as [|x init]; simplify_eq/=; by vm_compute in Hall. }
    split; [|by apply Hfirst].
    destruct p as [|c p]; [by apply (Hfirst "")|done]. }
  destruct Hp as [Hp Hp'].
  set (n := length h) in *.
  assert (Hlen : length h = n) by done.
  unfold setPath. simpl. rewrite Hp. simpl.
  rewrite (strict_eq_ne (VObj O) enyo) by congruence.
  unfold_St. unfold alloc, read_opts. simpl.
  rewrite lookup_snoc_new, (lookup_snoc_old _ _ _ _ Hlo).
  rewrite mixin_defaults_into_empty.
  fold (merged_options o).
  replace (length (h ++ [default_options])) with (n + 1)
    by (rewrite length_app; simpl; lia).
  rewrite <- !app_assoc. simpl.
  rewrite !(field_app_r _ _ n 1) by done.
  rewrite !field_cons_S, !field_cons_0.
  fold (setting o "force") (setting o "silent") (setting o "create")
       (setting o "comparator").
  rewrite Hp'. simpl. unfold segments in Hseg.
  destruct (split_dot _) as [|part parts] eqn:Hsplit; [by destruct init|].
  rewrite (setPath_loop_plain O V (VObj (n + 1)) (setting o "create") last
             {| heap := h ++ [default_options; merged_options o];
                trace := t |} init O T)
    by (simpl; first [by apply plain_target_old
                     | by rewrite plain_last_old | done]).
  unfold setPath_finish. unfold_St. cbn [truthy negb].
  rewrite (own_set_last (h ++ [default_options; merged_options o]) O T)
    by (simpl; first [done | by rewrite plain_last_old]).
  unfold_St. simpl.
  rewrite (field_old h _ T) by done.
  fold was. fold hw. fold notify. fold force. fold opts.
  destruct (if truthy notify && negb (truthy (setting o "silent"))
            then changed force (setting o "comparator") was V
            else λ s, Ok false s) as [[|] s'|e s']; done.
Qed.

End SetPathOptions.

Section SetPathSettings.
Context `{Host}.

(** X4: with a truthy [silent] in the options, [setPath] along an existing
    plain path writes the value and calls nothing, whatever [force] and
    [comparator] say and whether or not the value changed. *)
Theorem setPath_silent (O T lo : loc) (o : obj) (p : string)
    (init : list string) (last : string) (V : val) (s : state) :
  heap s !! lo = Some o →
  enyo ≠ VObj O →
  segments p = init ++ [last] →
  all_nonempty (init ++ [last]) = true →
  plain_target (heap s) O O init = Some T →
  plain_last (heap s) O T = true →
  T < length (heap s) →
  truthy (setting o "silent") = true →
  setPath (VObj O) (VStr p) V (VObj lo) s =
    Ok (VObj O)
       {| heap := store (heap s ++ [default_options; merged_options o])
                        T last V;
          trace := trace s |}.
Proof.
  intros Hlo Hne Hseg Hall Ht Hl HT Hsilent.
  rewrite (setPath_plain_object O T lo o p init last V s) by done.
  by rewrite Hsilent, andb_false_r.
Qed.

(** X5: with a truthy [force] and no [silent] in the options, [setPath]
    along an existing plain path calls the target's [notify] function once,
    with the segment, the old value, the new value and the merged options,
    also when the value is unchanged; the comparator is not consulted. *)
Theorem setPath_forced (O T lo : loc) (o : obj) (p : string)
    (init : list string) (last : string) (V r : val) (f : fid) (s : state)
    (h1 : list obj) :
  let was := field (heap s) T last in
  let hw := store (heap s ++ [default_options; merged_options o]) T last V in
  let args := [VStr last; was; V; VObj (length (heap s) + 1)] in
  heap s !! lo = Some o →
  enyo ≠ VObj O →
  segments p = init ++ [last] →
  all_nonempty (init ++ [last]) = true →
  plain_target (heap s) O O init = Some T →
  plain_last (heap s) O T = true →
  T < length (heap s) →
  truthy (setting o "force") = true →
  truthy (setting o "silent") = false →
  field hw T "notify" = VFun f →
  call f (VObj T) args hw = Returns r h1 →
  setPath (VObj O) (VStr p) V (VObj lo) s =
    Ok (VObj O) {| heap := h1; trace := trace s ++ [Call f (VObj T) args] |}.
Proof.
  intros was hw args Hlo Hne Hseg Hall Ht Hl HT Hforce Hsilent Hnotify Hcall.
  rewrite (setPath_plain_object O T lo o p init last V s) by done.
  fold was hw. rewrite Hnotify, Hsilent, Hforce. simpl.
  fold args. by rewrite Hcall.
Qed.


End SetPathSettings.

Lemma setPath_silent_witness :
  @setPath quiet_host (VObj 0) (VStr "x") (VNum 6) (VObj 1)
    (State (heap_opts {["silent" := VBool true; "force" := VBool true]}) [])
  = Ok (VObj 0)
       (State (store (heap_opts_set
                        {["silent" := VBool true; "force" := VBool true]})
                     0 "x" (VNum 6)) []).
Proof.
  apply (@setPath_silent quiet_host 0 0 1
           {["silent" := VBool true; "force" := VBool true]} "x" [] "x"
           (VNum 6)
           (State (heap_opts
                     {["silent" := VBool true; "force" := VBool true]}) []));
    first [reflexivity | discriminate | simpl; lia].
Defined.

Lemma setPath_forced_witness :
  @setPath quiet_host (VObj 0) (VStr "x") (VNum 5) (VObj 1)
    (State (heap_opts {["force" := VBool true]}) [])
  = Ok (VObj 0)
       (State (heap_opts_set {["force" := VBool true]})
              [Call 7 (VObj 0) [VStr "x"; VNum 5; VNum 5; VObj 3]]).
Proof.
  apply (@setPath_forced quiet_host 0 0 1 {["force" := VBool true]} "x" []
           "x" (VNum 5) VUndef 7
           (State (heap_opts {["force" := VBool true]}) []));
    first [reflexivity | discriminate | simpl; lia].
Defined.


(** ** setPath handing over to a node's own set *)

Lemma field_defined_valid (h : list obj) (l : loc) (k : string) :
  field h l k ≠ VUndef → l < length h.
Proof.
  unfold field. destruct (h !! l) eqn:E; [|done].
  intros _. by eapply lookup_lt_Some.
Qed.

Section SetPathDelegation.
Context `{Host}.

Lemma setPath_loop_delegates (base D : loc) (g : fid) (is_ opts create : val)
    (r1 r2 : string) (rs : list string) (s : state) (init : list string) :
  ∀ (l : loc) (part : string) (parts : list string),
    plain_target (heap s) base l init = Some D →
    D ≠ base →
    field (heap s) D "set" = VFun g →
    g ≠ fn_setPath →
    all_nonempty (init ++ [r1]) = true →
    part :: parts = init ++ r1 :: r2 :: rs →
    setPath_loop (VObj base) is_ opts create (VObj l) part parts s =
      match invoke (VFun g) (VObj D)
              [VStr (join_dot (r1 :: r2 :: rs)); is_; opts] s with
      | Ok _ s' => Ok Returned s'
      | Throw e s' => Throw e s'
      end.
Proof.
  induction init as [|seg rest IH]; intros l part parts Ht HD Hset Hg Hall Heq;
    simpl in Heq; injection Heq as -> ->; simpl in Ht.
  - injection Ht as ->. simpl. unfold_St.
    unfold own_set.
    rewrite (strict_eq_ne (VObj D) (VObj base)) by congruence. simpl.
    unfold_St. simpl. rewrite Hset. simpl.
    rewrite (strict_eq_ne (VFun g) (VFun fn_setPath)) by congruence. simpl.
    by destruct (call g _ _ _).
  - destruct (plain_step (heap s) base l) eqn:Hs; [|done].
    destruct (field (heap s) l seg) as [| | | | | |l'|] eqn:Hf; try done.
    simpl in Hall. apply andb_true_iff in Hall as [_ Hall].
    assert (Hhead : ∃ q qs, rest ++ r1 :: r2 :: rs = q :: qs
                            ∧ nonempty q = true).
    { destruct rest as [|x rest]; simpl in *;
        apply andb_true_iff in Hall as [Hx _]; eauto. }
    destruct Hhead as (q & qs & Hqs & Hq).
    rewrite Hqs. simpl. unfold_St.
    rewrite (own_set_step (heap s) base l) by done.
    rewrite (read_next_step (heap s) base l) by done.
    rewrite Hf. simpl. rewrite Hq.
    by apply IH.
Qed.

(** X7: when the walk, through plain nodes, comes to a node other than the
    root that has a [set] function of its own while at least two segments
    remain, [setPath] (called with no options object) calls that function
    once on the node, with the remaining segments joined by dots, the value
    and the default options, and returns the root; it writes nothing itself
    and looks at no later node. *)
Theorem setPath_hands_over (O D : loc) (g : fid) (p : string)
    (init : list string) (r1 r2 : string) (rs : list string) (V flag : val)
    (s : state) :
  let args := [VStr (join_dot (r1 :: r2 :: rs)); V;
               VObj (length (heap s))] in
  typeof flag ≠ TObject →
  enyo ≠ VObj O →
  segments p = init ++ r1 :: r2 :: rs →
  all_nonempty (init ++ [r1]) = true →
  plain_target (heap s) O O init = Some D →
  D ≠ O →
  field (heap s) D "set" = VFun g →
  g ≠ fn_setPath →
  setPath (VObj O) (VStr p) V flag s =
    match call g (VObj D) args (heap s ++ [default_options]) with
    | Returns _ h1 =>
        Ok (VObj O) {| heap := h1; trace := trace s ++ [Call g (VObj D) args] |}
    | Throws v h1 =>
        Throw (Raised v)
              {| heap := h1; trace := trace s ++ [Call g (VObj D) args] |}
    end.
Proof.
  intros args Hflag Hne Hseg Hall Ht HD Hset Hg.
  destruct s as [h t]. simpl in *.
  assert (HDn : D < length h)
    by (apply (field_defined_valid h D "set"); by rewrite Hset).
  assert (Hp : nonempty p = true
             ∧ nonempty (if leads_with_dot p then strip_dots p else p) = true).
  { unfold segments in Hseg.
    assert (Hfirst : ∀ q, split_dot q = init ++ r1 :: r2 :: rs →
                          nonempty q = true).
    { intros [|c q] Hq; [|done]. simpl in Hq.
      destruct init as [|x init]; simplify_eq/=. }
    split; [|by apply Hfirst].
    destruct p as [|c p]; [by apply (Hfirst "")|done]. }
  destruct Hp as [Hp Hp'].
  unfold setPath. simpl. rewrite Hp. simpl.
  rewrite (strict_eq_ne (VObj O) enyo) by congruence.
  unfold_St. unfold alloc, read_opts.
  rewrite (bool_decide_eq_false_2 _ Hflag). simpl.
  rewrite !field_new, default_options_force, default_options_silent,
    default_options_create, default_options_comparator. simpl.
  rewrite Hp'. simpl. unfold segments in Hseg.
  destruct (split_dot _) as [|part parts] eqn:Hsplit; [by destruct init|].
  rewrite (setPath_loop_delegates O D g V (VObj (length h)) (VBool true)
             r1 r2 rs {| heap := h ++ [default_options]; trace := t |}
             init O part parts)
    by (simpl; first [by apply plain_target_old
                     | by rewrite field_old | done]).
  unfold invoke. simpl. fold args.
  by destruct (call g _ _ _).
Qed.

End SetPathDelegation.

Lemma setPath_hands_over_witness :
  @setPath quiet_host (VObj 0) (VStr "a.b.c") (VNum 5) VUndef
    (State heap_a_set [])
  = Ok (VObj 0)
       (State (heap_a_set ++ [default_options])
              [Call 7 (VObj 1) [VStr "b.c"; VNum 5; VObj 2]]).
Proof.
  apply (@setPath_hands_over quiet_host 0 1 7 "a.b.c" ["a"] "b" "c" []
           (VNum 5) VUndef (State heap_a_set []));
    first [reflexivity | discriminate | simpl; lia].
Defined.

(** ** setPath on degenerate paths *)

(** X8: [setPath] with a falsy path returns its receiver and leaves the
    state as it is; with a non-empty path made of dots only it returns the
    object it would have started from (the global object when the receiver
    is [enyo]), changes no object of the heap and calls nothing. *)
Theorem setPath_degenerate_path `{Host} (this V opts : val) (s : state) :
  (∀ path, truthy path = false → setPath this path V opts s = Ok this s)
  ∧ (∀ p, nonempty p = true → only_dots p = true →
       ∃ ext, setPath this (VStr p) V opts s =
                Ok (if strict_eq this enyo then global else this)
                   {| heap := heap s ++ ext; trace := trace s |}).
Proof.
  split.
  - intros path Hf. unfold setPath. by rewrite Hf.
  - intros p Hne Hd. unfold setPath. simpl. rewrite Hne. simpl.
    rewrite (leads_with_dot_only_dots p Hd Hne), (strip_only_dots p Hd).
    unfold_St. unfold alloc, read_opts. simpl.
    destruct (bool_decide (typeof opts = TObject)); simpl.
    + eexists [_; _]. by rewrite <- app_assoc.
    + by eexists [_].
Qed.

Lemma setPath_degenerate_path_witness :
  @setPath quiet_host (VObj 0) (VStr "") (VNum 5) VUndef (State [∅] [])
    = Ok (VObj 0) (State [∅] [])
  ∧ ∃ ext, @setPath quiet_host (VObj 0) (VStr "..") (VNum 5) VUndef
             (State [∅] [])
           = Ok (VObj 0) (State ([∅] ++ ext) []).
Proof.
  destruct (@setPath_degenerate_path quiet_host (VObj 0) (VNum 5) VUndef
              (State [∅] [])) as [Hfalsy Hdots].
  split; [by apply Hfalsy | by apply Hdots].
Defined.

(** ** getPath along plain nodes *)

Section GetPathPlain.
Context `{Host}.

Lemma getPath_step_plain (base l : loc) (part : string) (s : state) :
  no_getters (heap s) l = true →
  plain_step (heap s) base l = true ∨ plain_get (heap s) l = true →
  getPath_step (VObj base) (VObj l) part s = Ok (field (heap s) l part) s.
Proof.
  unfold no_getters, getPath_step, custom_getter. intros Hg Hp.
  unfold_St. simpl. apply negb_true_iff in Hg. rewrite Hg. simpl.
  assert (Hc : truthy (field (heap s) l "get")
               && negb (strict_eq (VObj l) (VObj base))
               && negb (strict_eq (field (heap s) l "get") (VFun fn_getPath))
               = false).
  { assert (Hor : bool_decide (l = base) = true ∨ plain_get (heap s) l = true).
    { destruct Hp as [Hp|Hp]; [|by right]. unfold plain_step in Hp.
      apply orb_true_iff in Hp as [Hp|Hp]; [by left|].
      apply andb_true_iff in Hp as [Hp _]. by right. }
    destruct Hor as [Hb|Hp'].
    - apply bool_decide_eq_true_1 in Hb as ->.
      rewrite strict_eq_refl by done. simpl. by rewrite andb_false_r.
    - unfold plain_get in Hp'.
      destruct (truthy (field (heap s) l "get")); simpl in *; [|done].
      rewrite Hp'. simpl. by rewrite andb_false_r. }
  by rewrite Hc.
Qed.

Lemma getPath_loop_plain (base : loc) (last : string) (s : state)
    (init : list string) :
  ∀ (l T : loc) (part : string) (parts : list string),
    plain_target (heap s) base l init = Some T →
    plain_last (heap s) base T = true →
    getters_free (heap s) l init = true →
    all_nonempty (init ++ [last]) = true →
    part :: parts = init ++ [last] →
    getPath_loop (VObj base) (VObj l) part parts s =
      Ok (field (heap s) T last) s.
Proof.
  induction init as [|seg rest IH]; intros l T part parts Ht Hl Hg Hall Heq;
    simpl in Heq; injection Heq as -> ->; simpl in Ht, Hg.
  - injection Ht as ->. simpl. unfold_St.
    rewrite andb_true_r in Hg.
    apply andb_true_iff in Hl as [Hl _].
    rewrite (getPath_step_plain base T) by auto.
    by destruct (truthy _).
  - destruct (plain_step (heap s) base l) eqn:Hs; [|done].
    apply andb_true_iff in Hg as [Hg0 Hg].
    destruct (field (heap s) l seg) as [| | | | | |l'|] eqn:Hf; try done.
    simpl in Hall. apply andb_true_iff in Hall as [_ Hall].
    assert (Hhead : ∃ q qs, rest ++ [last] = q :: qs ∧ nonempty q = true).
    { destruct rest as [|x rest]; simpl in *;
        apply andb_true_iff in Hall as [Hx _]; eauto. }
    destruct Hhead as (q & qs & Hqs & Hq).
    rewrite Hqs. simpl. unfold_St.
    rewrite (getPath_step_plain base l) by auto.
    rewrite Hf. simpl. rewrite Hq.
    by apply IH.
Qed.

(** The whole walk of [getPath] along a plain path. *)
Lemma getPath_plain_path (O T : loc) (p : string) (init : list string)
    (last : string) (s : state) :
  enyo ≠ VObj O →
  segments p = init ++ [last] →
  all_nonempty (init ++ [last]) = true →
  plain_target (heap s) O O init = Some T →
  plain_last (heap s) O T = true →
  getters_free (heap s) O init = true →
  getPath (VObj O) (VStr p) s = Ok (field (heap s) T last) s.
Proof.
  intros Hne Hseg Hall Ht Hl Hg.
  assert (Hp : nonempty p = true
             ∧ nonempty (if leads_with_dot p then strip_dots p else p) = true).
  { unfold segments in Hseg.
    assert (Hfirst : ∀ q, split_dot q = init ++ [last] → nonempty q = true).
    { intros [|c q] Hq; [|done]. simpl in Hq.
      destruct init as [|x init]; simplify_eq/=; by vm_compute in Hall. }
    split; [|by apply Hfirst].
    destruct p as [|c p]; [by apply (Hfirst "")|done]. }
  destruct Hp as [Hp Hp'].
  unfold getPath. simpl. rewrite Hp. simpl.
  rewrite (strict_eq_ne (VObj O) enyo) by congruence.
  rewrite Hp'. simpl. unfold segments in Hseg.
  destruct (split_dot _) as [|part parts] eqn:Hsplit; [by destruct init|].
  by apply (getPath_loop_plain O last s init O T).
Qed.

(** X9: on a path of non-empty segments that exists through plain nodes
    without getter tables, [getPath] returns what indexing by hand finds
    under the last segment of the node reached, be it truthy, falsy or
    absent, and leaves the state as it is. *)
Theorem getPath_plain (O T : loc) (p : string) (init : list string)
    (last : string) (s : state) :
  enyo ≠ VObj O →
  segments p = init ++ [last] →
  all_nonempty (init ++ [last]) = true →
  plain_target (heap s) O O init = Some T →
  plain_last (heap s) O T = true →
  getters_free (heap s) O init = true →
  getPath (VObj O) (VStr p) s = Ok (field (heap s) T last) s.
Proof.
  intros Hne Hseg Hall Ht Hl Hg.
  by apply (getPath_plain_path O T p init last s).
Qed.

End GetPathPlain.

Lemma getPath_plain_witness :
  @getPath quiet_host (VObj 0) (VStr "a.b") (State heap_a_b [])
  = Ok (VNum 1) (State heap_a_b []).
Proof.
  apply (@getPath_plain quiet_host 0 1 "a.b" ["a"] "b" (State heap_a_b []));
    first [reflexivity | discriminate].
Defined.

(** ** Reading back what setPath wrote *)

Lemma field_store_ne (h : list obj) (T l : loc) (k k' : string) (x : val) :
  l ≠ T → field (store h T k x) l k' = field h l k'.
Proof.
  intros Hne. unfold field, store.
  destruct (h !! T); [|done]. by rewrite list_lookup_insert_ne.
Qed.

Lemma field_store_key (h : list obj) (T : loc) (k k' : string) (x : val) :
  k' ≠ k → field (store h T k x) T k' = field h T k'.
Proof.
  intros Hne. unfold field, store.
  destruct (h !! T) as [o|] eqn:E; [|by rewrite E].
  rewrite list_lookup_insert_eq by (by eapply lookup_lt_Some).
  by rewrite lookup_insert_ne.
Qed.

Lemma field_store_eq (h : list obj) (T : loc) (k : string) (x : val) :
  T < length h → field (store h T k x) T k = x.
Proof.
  intros HT. unfold field, store.
  destruct (lookup_lt_is_Some_2 _ _ HT) as [o Ho]. rewrite Ho.
  rewrite list_lookup_insert_eq by done. by rewrite lookup_insert_eq.
Qed.

Lemma field_store_any (h : list obj) (T l : loc) (k k' : string) (x : val) :
  l ≠ T ∨ k' ≠ k → field (store h T k x) l k' = field h l k'.
Proof.
  intros [Hl|Hk]; [by apply field_store_ne|].
  destruct (decide (l = T)) as [->|Hl];
    [by apply field_store_key | by apply field_store_ne].
Qed.

Lemma plain_target_store (h : list obj) (T base : loc) (k : string) (x : val)
    (segs : list string) :
  ∀ l, T ∉ visited h l segs →
       plain_target (store h T k x) base l segs = plain_target h base l segs.
Proof.
  induction segs as [|seg rest IH]; intros l Hv; simpl in *; [done|].
  apply not_elem_of_cons in Hv as [Hl Hv].
  unfold plain_step, plain_get, plain_set.
  rewrite !(field_store_ne h T l) by done.
  destruct (_ || _); [|done].
  destruct (field h l seg); try done. by apply IH.
Qed.

Lemma getters_free_store (h : list obj) (T : loc) (k : string) (x : val)
    (segs : list string) :
  k ≠ "_getters" →
  ∀ l, T ∉ visited h l segs →
       getters_free (store h T k x) l segs = getters_free h l segs.
Proof.
  intros Hk. induction segs as [|seg rest IH]; intros l Hv; simpl in *.
  - unfold no_getters. by rewrite field_store_any by auto.
  - apply not_elem_of_cons in Hv as [Hl Hv].
    unfold no_getters. rewrite !(field_store_ne h T l) by done.
    destruct (negb _); [|done]. simpl.
    destruct (field h l seg); try done. by apply IH.
Qed.

Lemma getters_free_old (h ext : list obj) (segs : list string) :
  ∀ (l T : loc) (base : loc),
    plain_target h base l segs = Some T → T < length h →
    getters_free (h ++ ext) l segs = getters_free h l segs.
Proof.
  induction segs as [|seg rest IH]; intros l T base Ht HT; simpl in *.
  - injection Ht as ->. unfold no_getters. by rewrite field_old.
  - destruct (plain_step h base l); [|done].
    destruct (field h l seg) as [| | | | | |l'|] eqn:Hf; try done.
    pose proof (field_valid _ _ _ _ Hf) as Hl.
    unfold no_getters. rewrite !field_old, Hf by done.
    destruct (negb _); [|done]. simpl. by eapply IH.
Qed.

Lemma visited_old (h ext : list obj) (segs : list string) :
  ∀ (l T : loc) (base : loc),
    plain_target h base l segs = Some T → T < length h →
    visited (h ++ ext) l segs = visited h l segs.
Proof.
  induction segs as [|seg rest IH]; intros l T base Ht HT; simpl in *; [done|].
  destruct (plain_step h base l); [|done].
  destruct (field h l seg) as [| | | | | |l'|] eqn:Hf; try done.
  pose proof (field_valid _ _ _ _ Hf) as Hl.
  rewrite field_old, Hf by done. f_equal. by eapply IH.
Qed.

(** X10: along an existing path through plain nodes without getter tables,
    when the target is not one of the nodes walked through, the last
    segment is none of get, set and _getters, and the target has no
    [notify] once written, a default [setPath] of a value followed by
    [getPath] of the same path reads that value back. *)
Theorem setPath_then_getPath `{Host} (O T : loc) (p : string)
    (init : list string) (last : string) (V : val) (s : state) :
  let hw := store (heap s ++ [default_options]) T last V in
  enyo ≠ VObj O →
  segments p = init ++ [last] →
  all_nonempty (init ++ [last]) = true →
  plain_target (heap s) O O init = Some T →
  plain_last (heap s) O T = true →
  getters_free (heap s) O init = true →
  T < length (heap s) →
  T ∉ visited (heap s) O init →
  last ∉ ["get"; "set"; "_getters"] →
  truthy (field hw T "notify") = false →
  setPath (VObj O) (VStr p) V VUndef s =
    Ok (VObj O) {| heap := hw; trace := trace s |}
  ∧ getPath (VObj O) (VStr p) {| heap := hw; trace := trace s |} =
      Ok V {| heap := hw; trace := trace s |}.
Proof.
  intros hw Hne Hseg Hall Ht Hl Hg HT Hv Hlast Hnotify.
  assert (Hget : last ≠ "get") by set_solver.
  assert (Hset : last ≠ "set") by set_solver.
  assert (Hgetters : last ≠ "_getters") by set_solver.
  assert (HTw : T < length (heap s ++ [default_options]))
    by (rewrite length_app; lia).
  split.
  - rewrite (setPath_plain_flag O T p init last V VUndef s) by done.
    fold hw. by rewrite Hnotify.
  - assert (Hfield : field hw T last = V) by (by apply field_store_eq).
    rewrite <- Hfield at 1.
    apply (getPath_plain_path O T p init last
             {| heap := hw; trace := trace s |});
      try done; simpl; subst hw.
    + rewrite plain_target_store
        by (by rewrite (visited_old _ _ _ _ _ _ Ht HT)).
      by apply plain_target_old.
    + unfold plain_last, plain_get, plain_set.
      rewrite !field_store_key by done.
      fold (plain_get (heap s ++ [default_options]) T).
      fold (plain_set (heap s ++ [default_options]) T).
      by rewrite plain_get_old, plain_set_old.
    + rewrite getters_free_store
        by (first [done | by rewrite (visited_old _ _ _ _ _ _ Ht HT)]).
      by rewrite (getters_free_old _ _ _ _ _ _ Ht HT).
Qed.

Lemma setPath_then_getPath_witness :
  @setPath quiet_host (VObj 0) (VStr "a.b") (VNum 7) VUndef (State heap_a_b [])
    = Ok (VObj 0)
         (State (store (heap_a_b ++ [default_options]) 1 "b" (VNum 7)) [])
  ∧ @getPath quiet_host (VObj 0) (VStr "a.b")
      (State (store (heap_a_b ++ [default_options]) 1 "b" (VNum 7)) [])
    = Ok (VNum 7)
         (State (store (heap_a_b ++ [default_options]) 1 "b" (VNum 7)) []).
Proof.
  apply (@setPath_then_getPath quiet_host 0 1 "a.b" ["a"] "b" (VNum 7)
           (State heap_a_b []));
    first [reflexivity | discriminate | simpl; lia
          | apply (bool_decide_unpack _); by vm_compute].
Defined.

(** ** getPath writes nothing *)

Section GetPathWritesNothing.
Context `{Host}.

Lemma writes_nothing_ret {A} (a : A) : writes_nothing (mret a : M A).
Proof. intros s. by split. Qed.

Lemma writes_nothing_throw {A} (e : exn) : writes_nothing (throw e : M A).
Proof. intros s. by split. Qed.

Lemma writes_nothing_bind {A B} (m : M A) (k : A → M B) :
  writes_nothing m → (∀ a, writes_nothing (k a)) →
  writes_nothing (m ≫= k).
Proof.
  intros Hm Hk s. specialize (Hm s). unfold_St.
  destruct (m s) as [a s1|e s1]; simpl in *; [|done].
  destruct Hm as [Hle Heq]. specialize (Hk a s1) as [Hle' Heq'].
  split; [lia|]. intros Hlen.
  assert (Hs1 : s1 = s) by (apply Heq; lia). subst s1. by apply Heq'.
Qed.

Lemma writes_nothing_get_prop (v : val) (k : string) :
  writes_nothing (get_prop v k).
Proof. intros s. unfold get_prop. by destruct v. Qed.

Lemma writes_nothing_to_key (v : val) : writes_nothing (to_key v).
Proof. intros s. by destruct v. Qed.

Lemma writes_nothing_invoke (fn this : val) (args : list val) :
  writes_nothing (invoke fn this args).
Proof.
  intros s. unfold invoke. destruct fn; try done.
  destruct (call _ _ _ _); simpl; rewrite length_app; simpl; split; lia.
Qed.

Lemma writes_nothing_getPath_step (this next : val) (part : string) :
  writes_nothing (getPath_step this next part).
Proof.
  unfold getPath_step, custom_getter.
  repeat first
    [ apply writes_nothing_bind; [|intros ?]
    | apply writes_nothing_get_prop
    | apply writes_nothing_to_key
    | apply writes_nothing_invoke
    | apply writes_nothing_ret
    | match goal with |- writes_nothing (if ?b then _ else _) =>
        destruct b end
    | match goal with |- writes_nothing (match ?o with _ => _ end) =>
        destruct o end ].
Qed.

Lemma writes_nothing_getPath_loop (this : val) (parts : list string) :
  ∀ (next : val) (part : string),
    writes_nothing (getPath_loop this next part parts).
Proof.
  induction parts as [|p ps IH]; intros next part; simpl;
    (apply writes_nothing_bind; [apply writes_nothing_getPath_step|]);
    intros v; destruct (truthy v); try apply writes_nothing_ret.
  destruct (nonempty p); [apply IH | apply writes_nothing_ret].
Qed.

(** X11: [getPath] itself never writes: whatever the receiver and the path,
    and whether it returns or throws, if it called no function then it ends
    in the very state it started from. *)
Theorem getPath_writes_nothing (this path : val) (s : state) :
  trace (final (getPath this path s)) = trace s →
  final (getPath this path s) = s.
Proof.
  intros Htrace.
  assert (Hw : writes_nothing (getPath this path)).
  { unfold getPath.
    destruct (_ && _); [apply writes_nothing_ret|].
    destruct path; try apply writes_nothing_throw.
    destruct (negb _); [apply writes_nothing_ret|].
    destruct (split_dot _); [apply writes_nothing_ret|].
    apply writes_nothing_getPath_loop. }
  apply Hw. by rewrite Htrace.
Qed.

End GetPathWritesNothing.

Lemma getPath_writes_nothing_witness :
  final (@getPath quiet_host (VObj 0) (VStr "a.b.c") (State heap_a_b []))
  = State heap_a_b [].
Proof.
  apply (@getPath_writes_nothing quiet_host (VObj 0) (VStr "a.b.c")
           (State heap_a_b [])).
  reflexivity.
Defined.

(** ** The fast paths *)

Section FastFacts.
Context `{Host}.

Lemma read_fast_plain (b : loc) (path : string) (s : state) :
  no_getters (heap s) b = true →
  read_fast (VObj b) path s = Ok (field (heap s) b path) s.
Proof.
  unfold no_getters, read_fast. intros Hg. apply negb_true_iff in Hg.
  unfold_St. simpl. rewrite Hg. simpl. by rewrite Hg.
Qed.

(** X12: for a single non-empty segment without dots, on a receiver without
    getter table whose value there is not a function, the fast getter and
    [getPath] return the same value, the one stored under that name, and
    both leave the state as it is. *)
Theorem getPath_fast_agrees (checkConstructor : val → M val) (b : loc)
    (p : string) (s : state) :
  enyo ≠ VObj b →
  segments p = [p] →
  nonempty p = true →
  no_getters (heap s) b = true →
  typeof (field (heap s) b p) ≠ TFunction →
  getPath_fast checkConstructor (VObj b) p s = Ok (field (heap s) b p) s
  ∧ getPath (VObj b) (VStr p) s = Ok (field (heap s) b p) s.
Proof.
  intros Hne Hseg Hp Hg Hfun. split.
  - unfold getPath_fast. unfold_St. rewrite read_fast_plain by done.
    by rewrite bool_decide_eq_false_2.
  - unfold getPath. simpl. rewrite Hp. simpl.
    rewrite (strict_eq_ne (VObj b) enyo) by congruence.
    unfold segments in Hseg.
    assert (Hp' : nonempty (if leads_with_dot p then strip_dots p else p)
                  = true).
    { destruct (if leads_with_dot p then strip_dots p else p) eqn:E; [|done].
      simpl in Hseg. injection Hseg as <-. done. }
    rewrite Hp', Hseg. simpl. unfold_St.
    rewrite (getPath_step_plain b b)
      by (first [done | left; unfold plain_step;
                        by rewrite bool_decide_eq_true_2]).
    by destruct (truthy _).
Qed.

(** X13: the fast setter does nothing for a property declared computed: no
    write, no call, the receiver is returned and the state is as before,
    whatever the value. *)
Theorem setPath_fast_computed (b lc : loc) (path : string) (value : val)
    (s : state) :
  field (heap s) b "_computed" = VObj lc →
  field (heap s) lc path ≠ VUndef →
  setPath_fast (VObj b) path value s = Ok (VObj b) s.
Proof.
  intros Hc Hdecl. unfold setPath_fast. unfold_St. simpl.
  rewrite Hc. simpl.
  destruct (strict_eq (field (heap s) lc path) VUndef) eqn:E; [|done].
  by apply strict_eq_sound in E.
Qed.

(** X14: on a receiver without getter table, for a property not declared
    computed, the fast setter writes the value and calls the receiver's
    [notifyObservers] with the name, the old and the new value when the two
    differ; a second call with the same value (not NaN), once the observers
    have left the property in place, changes nothing at all and calls
    nothing. *)
Theorem setPath_fast_twice (b : loc) (path : string) (V r : val) (f : fid)
    (s : state) (h1 : list obj) :
  let rv := field (heap s) b path in
  let hw := store (heap s) b path V in
  let args := [VStr path; rv; V] in
  not_computed (heap s) b path = true →
  no_getters (heap s) b = true →
  strict_eq rv V = false →
  field hw b "notifyObservers" = VFun f →
  call f (VObj b) args hw = Returns r h1 →
  V ≠ VNaN →
  not_computed h1 b path = true →
  no_getters h1 b = true →
  own h1 b path = Some V →
  let s1 := {| heap := h1; trace := trace s ++ [Call f (VObj b) args] |} in
  setPath_fast (VObj b) path V s = Ok (VObj b) s1
  ∧ setPath_fast (VObj b) path V s1 = Ok (VObj b) s1.
Proof.
  intros rv hw args Hc Hg Hdiff Hobs Hcall HV Hc1 Hg1 Hown s1.
  assert (Hguard : ∀ st, not_computed (heap st) b path = true →
            ∃ c, (if truthy (field (heap st) b "_computed")
                  then get_prop (field (heap st) b "_computed") path
                  else mret VUndef) st = Ok c st
                 ∧ truthy (field (heap st) b "_computed")
                   && negb (strict_eq c VUndef) = false).
  { intros st Hnc. unfold not_computed in Hnc.
    destruct (field (heap st) b "_computed") eqn:E; simpl in *;
      try (apply negb_true_iff in Hnc);
      try (eexists; split; [reflexivity|]; simpl; by rewrite ?Hnc).
    - rewrite Hnc. eexists; split; [reflexivity|]. done.
    - rewrite Hnc. eexists; split; [reflexivity|]. done.
    - rewrite Hnc. eexists; split; [reflexivity|]. done. }
  split.
  - unfold setPath_fast. unfold_St. simpl.
    destruct (Hguard s Hc) as (c & -> & ->).
    rewrite read_fast_plain by done. simpl.
    fold rv hw. rewrite Hdiff. simpl. rewrite Hobs. unfold invoke. simpl.
    fold args. by rewrite Hcall.
  - destruct (Hguard s1 Hc1) as (c & Hrun & Hgd).
    subst s1. simpl in Hrun, Hgd.
    unfold setPath_fast. unfold_St. simpl. rewrite Hrun, Hgd.
    rewrite read_fast_plain by done. simpl.
    unfold own in Hown. destruct (h1 !! b) as [o|] eqn:Hb; [|done].
    simpl in Hown.
    rewrite (field_at _ _ _ _ Hb), Hown. simpl.
    rewrite (strict_eq_refl V HV). simpl.
    by rewrite (store_same _ _ _ _ _ Hb Hown).
Qed.

End FastFacts.

Lemma getPath_fast_agrees_witness :
  @getPath_fast quiet_host (λ v, mret v) (VObj 0) "a"
    (State (heap_a (VNum 3)) [])
    = Ok (VNum 3) (State (heap_a (VNum 3)) [])
  ∧ @getPath quiet_host (VObj 0) (VStr "a") (State (heap_a (VNum 3)) [])
    = Ok (VNum 3) (State (heap_a (VNum 3)) []).
Proof.
  apply (@getPath_fast_agrees quiet_host (λ v, mret v) 0 "a"
           (State (heap_a (VNum 3)) []));
    first [reflexivity | discriminate].
Defined.

Lemma setPath_fast_computed_witness :
  @setPath_fast quiet_host (VObj 0) "total" (VNum 9) (State heap_computed [])
  = Ok (VObj 0) (State heap_computed []).
Proof.
  apply (@setPath_fast_computed quiet_host 0 1 "total" (VNum 9)
           (State heap_computed []));
    first [reflexivity | discriminate].
Defined.

Lemma setPath_fast_twice_witness :
  @setPath_fast quiet_host (VObj 0) "x" (VNum 2)
    (State (heap_observed (VNum 1)) [])
    = Ok (VObj 0)
         (State (heap_observed (VNum 2))
                [Call 7 (VObj 0) [VStr "x"; VNum 1; VNum 2]])
  ∧ @setPath_fast quiet_host (VObj 0) "x" (VNum 2)
      (State (heap_observed (VNum 2))
             [Call 7 (VObj 0) [VStr "x"; VNum 1; VNum 2]])
    = Ok (VObj 0)
         (State (heap_observed (VNum 2))
                [Call 7 (VObj 0) [VStr "x"; VNum 1; VNum 2]]).
Proof.
  apply (@setPath_fast_twice quiet_host 0 "x" (VNum 2) VUndef 7
           (State (heap_observed (VNum 1)) []));
    first [reflexivity | discriminate].
Defined.

(** ** Closures *)

Section ClosureFacts.
Context `{Host}.

(** X15: [bindSafely] with the name of a function-valued property of an
    object resolves the method when binding.  Called later, in whatever
    state, the closure does nothing and returns undefined if the scope's
    [destroyed] is truthy, and otherwise calls that method on the scope
    with the bound arguments followed by the call's own. *)
Theorem bindSafely_then_call (l : loc) (name : string) (f : fid)
    (args : list val) (s : state) :
  field (heap s) l name = VFun f →
  ∃ c, bindSafely (VObj l) (VStr name) args s = Ok c s
       ∧ ∀ nargs s',
           call_closure c nargs s' =
             if truthy (field (heap s') l "destroyed") then Ok VUndef s'
             else invoke (VFun f) (VObj l) (args ++ nargs) s'.
Proof.
  intros Hf. eexists. split.
  - unfold bindSafely. unfold_St. simpl. by rewrite Hf.
  - intros nargs s'. simpl. unfold_St. simpl.
    by destruct (truthy _).
Qed.

(** X16: [bind] with the name of a function-valued property of an object
    resolves the method when binding; the closure then calls that method on
    the scope with the bound arguments followed by the call's own, whatever
    has become of the scope.  With a function in place of the scope and no
    method, the function is bound to the global object. *)
Theorem bind_then_call (l : loc) (name : string) (f : fid)
    (args : list val) (s : state) :
  field (heap s) l name = VFun f →
  nonempty name = true →
  (∃ c, bind (VObj l) (VStr name) args s = Ok c s
        ∧ ∀ nargs s',
            call_closure c nargs s' =
              invoke (VFun f) (VObj l) (args ++ nargs) s')
  ∧ (∀ g method, truthy method = false →
       bind (VFun g) method args s = Ok (Bound (VFun g) global args) s).
Proof.
  intros Hf Hname. split.
  - eexists. split.
    + unfold bind. simpl. rewrite Hname. simpl. unfold_St. simpl.
      by rewrite Hf.
    + done.
  - intros g method Hm. unfold bind. by rewrite Hm.
Qed.

End ClosureFacts.

Lemma bindSafely_then_call_witness :
  ∃ c, bindSafely (VObj 0) (VStr "run") [VNum 1] (State heap_run [])
       = Ok c (State heap_run [])
       ∧ ∀ nargs s',
           @call_closure quiet_host c nargs s' =
             if truthy (field (heap s') 0 "destroyed") then Ok VUndef s'
             else @invoke quiet_host (VFun 7) (VObj 0) ([VNum 1] ++ nargs) s'.
Proof.
  apply (@bindSafely_then_call quiet_host 0 "run" 7 [VNum 1]
           (State heap_run [])).
  reflexivity.
Defined.

Lemma bind_then_call_witness :
  (∃ c, @bind quiet_host (VObj 0) (VStr "run") [VNum 1] (State heap_run [])
        = Ok c (State heap_run [])
        ∧ ∀ nargs s',
            @call_closure quiet_host c nargs s' =
              @invoke quiet_host (VFun 7) (VObj 0) ([VNum 1] ++ nargs) s')
  ∧ (∀ g method, truthy method = false →
       @bind quiet_host (VFun g) method [VNum 1] (State heap_run [])
       = Ok (Bound (VFun g) (@global quiet_host) [VNum 1])
            (State heap_run [])).
Proof.
  apply (@bind_then_call quiet_host 0 "run" 7 [VNum 1] (State heap_run []));
    reflexivity.
Defined.


(** * Array helpers *)

Module ArraysFacts.
Import Arrays.

Local Open Scope Z_scope.

Lemma strict_eq_true (x y : val) :
  strict_eq x y = true ↔ x = y ∧ y ≠ VNaN.
Proof.
  split.
  - intros Hb. split; [by apply strict_eq_sound|].
    intros ->. by destruct x.
  - intros [-> Hy]. by apply strict_eq_refl.
Qed.

Lemma scan_spec (el : val) (rest : list val) (offset : Z) :
  (scan el rest offset = -1
   ∧ ∀ (j : nat) x, rest !! j = Some x → strict_eq x el = false)
  ∨ (∃ (k : nat) x,
       scan el rest offset = offset + Z.of_nat k
       ∧ rest !! k = Some x ∧ strict_eq x el = true
       ∧ ∀ (j : nat) y, (j < k)%nat → rest !! j = Some y →
           strict_eq y el = false).
Proof.
  revert offset. induction rest as [|x rest IH]; intros offset; simpl.
  - left. split; [done|]. intros j y Hj. by rewrite lookup_nil in Hj.
  - destruct (strict_eq x el) eqn:Hx.
    + right. exists 0%nat, x. split_and!; [lia|done|done|].
      intros j y Hj. lia.
    + destruct (IH (offset + 1)) as [[Hs Hall]|(k & y & Hs & Hk & Hy & Hall)].
      * left. split; [done|].
        intros [|j] y Hj; simpl in Hj; [by simplify_eq|by eapply Hall].
      * right. exists (S k), y. split_and!; [lia|done|done|].
        intros [|j] z Hlt Hj; simpl in Hj; [by simplify_eq|].
        eapply Hall; [|done]. lia.
Qed.

Lemma start_offset_nonneg (len offset : Z) : 0 ≤ start_offset len offset.
Proof.
  unfold start_offset.
  destruct (offset <? 0) eqn:H1; [destruct (offset + len <? 0) eqn:H2|
    rewrite H1]; lia.
Qed.

(** The two outcomes of the search. *)
Lemma indexOf_cases (this : list val) (el : val) (offset : Z) :
  let start := Z.to_nat (start_offset (Z.of_nat (length this)) offset) in
  (indexOf this el offset = -1
   ∧ ∀ (j : nat) x, (start ≤ j)%nat → this !! j = Some x →
       strict_eq x el = false)
  ∨ (∃ (k : nat) x,
       indexOf this el offset = Z.of_nat k
       ∧ (start ≤ k)%nat ∧ this !! k = Some x ∧ strict_eq x el = true
       ∧ ∀ (j : nat) y, (start ≤ j < k)%nat → this !! j = Some y →
           strict_eq y el = false).
Proof.
  intros start. unfold indexOf. fold start.
  pose proof (start_offset_nonneg (Z.of_nat (length this)) offset) as Hnn.
  destruct (scan_spec el (drop start this)
              (start_offset (Z.of_nat (length this)) offset))
    as [[Hs Hall]|(k & y & Hs & Hk & Hy & Hall)].
  - left. split; [done|]. intros j x Hj Hx.
    apply (Hall (j - start)%nat x). rewrite lookup_drop.
    by replace (start + (j - start))%nat with j by lia.
  - right. exists (start + k)%nat, y. rewrite lookup_drop in Hk.
    split_and!; [rewrite Hs; subst start; lia|lia|done|done|].
    intros j z Hj Hz. apply (Hall (j - start)%nat z); [lia|].
    rewrite lookup_drop.
    by replace (start + (j - start))%nat with j by lia.
Qed.

(** X17: [indexOf] searches from the start offset (a negative offset counts
    from the end, and is 0 if still negative): it returns -1 exactly when no
    element from there on is strictly equal to [el], and otherwise the index
    of the first such element. *)
Theorem indexOf_first (this : list val) (el : val) (offset : Z) :
  let start := Z.to_nat (start_offset (Z.of_nat (length this)) offset) in
  (indexOf this el offset = -1
   ∧ ∀ (j : nat) x, (start ≤ j)%nat → this !! j = Some x →
       strict_eq x el = false)
  ∨ (∃ (k : nat) x,
       indexOf this el offset = Z.of_nat k
       ∧ (start ≤ k)%nat ∧ this !! k = Some x ∧ strict_eq x el = true
       ∧ ∀ (j : nat) y, (start ≤ j < k)%nat → this !! j = Some y →
           strict_eq y el = false).
Proof.
  intros start. subst start. apply indexOf_cases.
Qed.

Lemma indexOf_0_cases (this : list val) (el : val) :
  (indexOf this el 0 = -1
   ∧ ∀ (j : nat) x, this !! j = Some x → strict_eq x el = false)
  ∨ (∃ (k : nat) x,
       indexOf this el 0 = Z.of_nat k
       ∧ this !! k = Some x ∧ strict_eq x el = true
       ∧ ∀ (j : nat) y, (j < k)%nat → this !! j = Some y →
           strict_eq y el = false).
Proof.
  destruct (indexOf_cases this el 0)
    as [[Hi Hall]|(k & x & Hi & _ & Hk & Hx & Hall)].
  - left. split; [done|]. intros j x Hj. apply (Hall j x); [|done].
    unfold start_offset. simpl. lia.
  - right. exists k, x. split_and!; [done|done|done|].
    intros j y Hj Hy. apply (Hall j y); [|done].
    unfold start_offset. simpl. lia.
Qed.

Lemma indexOf_0_none (this : list val) (el : val) :
  indexOf this el 0 = -1 ↔ ∀ x, x ∈ this → strict_eq x el = false.
Proof.
  split.
  - intros Hi x Hx. apply list_elem_of_lookup in Hx as [j Hj].
    destruct (indexOf_0_cases this el) as [[_ Hall]|(k & y & Hk & _)];
      [|rewrite Hi in Hk; lia].
    by apply (Hall j x).
  - intros Hall.
    destruct (indexOf_0_cases this el) as [[Hi _]|(k & y & _ & Hk & Hy & _)];
      [done|].
    rewrite Hall in Hy; [done|]. by eapply list_elem_of_lookup_2.
Qed.

Lemma indexOf_0_found (pre post : list val) (x el : val) :
  strict_eq x el = true →
  (∀ y, y ∈ pre → strict_eq y el = false) →
  indexOf (pre ++ x :: post) el 0 = Z.of_nat (length pre).
Proof.
  intros Hx Hpre.
  destruct (indexOf_0_cases (pre ++ x :: post) el)
    as [[_ Hall]|(k & y & Hi & Hk & Hy & Hall)].
  - rewrite (Hall (length pre) x) in Hx; [done|].
    by rewrite list_lookup_middle.
  - rewrite Hi. f_equal.
    destruct (decide (k < length pre)%nat) as [Hlt|Hge].
    + rewrite lookup_app_l in Hk by done.
      rewrite Hpre in Hy; [done|]. by eapply list_elem_of_lookup_2.
    + destruct (decide (k = length pre)) as [->|Hne]; [done|].
      rewrite (Hall (length pre) x) in Hx; [done|lia|].
      by rewrite list_lookup_middle.
Qed.

(** X18: [lastIndexOf] of undefined in a non-empty array, with the offset
    left out or beyond the length, starts its search at [array[len]], which
    is undefined: the result is the length, an index the array does not
    have. *)
Theorem lastIndexOf_undefined (this : list val) (offset : option Z) :
  this ≠ [] →
  match offset with
  | Some o => Z.of_nat (length this) < Z.abs o
  | None => True
  end →
  lastIndexOf this VUndef offset = Z.of_nat (length this).
Proof.
  intros Hne Hoff.
  assert (0 < Z.of_nat (length this)) as Hlen
    by (destruct this; [done|simpl; lia]).
  assert (scan_back VUndef this (length this) = Z.of_nat (length this))
    as Hscan.
  { remember (length this) as n eqn:Hn.
    destruct n as [|n]; [simpl in Hlen; lia|].
    unfold scan_back, item.
    destruct (Z.ltb_spec (Z.of_nat (S n)) 0); [lia|].
    rewrite Nat2Z.id. by rewrite lookup_ge_None_2 by lia. }
  unfold lastIndexOf.
  destruct (Z.eqb_spec (Z.of_nat (length this)) 0); [lia|].
  destruct offset as [o|]; cbv zeta.
  - destruct (Z.ltb_spec (Z.of_nat (length this)) (Z.abs o)); [|lia].
    destruct (Z.ltb_spec (Z.of_nat (length this)) 0); [lia|].
    destruct (Z.ltb_spec (-1) (Z.of_nat (length this))); [|lia].
    by rewrite Nat2Z.id.
  - destruct (Z.ltb_spec (-1) (Z.of_nat (length this))); [|lia].
    by rewrite Nat2Z.id.
Qed.

Lemma scan_back_spec (el : val) (array : list val) (offset : nat) :
  (scan_back el array offset = -1
   ∧ ∀ j : nat, (j ≤ offset)%nat →
       strict_eq (item array (Z.of_nat j)) el = false)
  ∨ (∃ k : nat,
       scan_back el array offset = Z.of_nat k ∧ (k ≤ offset)%nat
       ∧ strict_eq (item array (Z.of_nat k)) el = true
       ∧ ∀ j : nat, (k < j ≤ offset)%nat →
           strict_eq (item array (Z.of_nat j)) el = false).
Proof.
  induction offset as [|o IH].
  - unfold scan_back.
    destruct (strict_eq (item array (Z.of_nat 0)) el) eqn:Hx.
    + right. exists 0%nat. split_and!; [done|lia|done|]. intros j Hj. lia.
    + left. split; [done|]. intros j Hj.
      by replace j with 0%nat by lia.
  - change (scan_back el array (S o))
      with (if strict_eq (item array (Z.of_nat (S o))) el
            then Z.of_nat (S o) else scan_back el array o).
    destruct (strict_eq (item array (Z.of_nat (S o))) el) eqn:Hx.
    + right. exists (S o). split_and!; [done|lia|done|]. intros j Hj. lia.
    + destruct IH as [[Hs Hall]|(k & Hs & Hk & Hy & Hall)].
      * left. split; [done|]. intros j Hj.
        destruct (decide (j = S o)) as [->|Hne]; [done|]. apply Hall. lia.
      * right. exists k. split_and!; [done|lia|done|].
        intros j Hj.
        destruct (decide (j = S o)) as [->|Hne]; [done|]. apply Hall. lia.
Qed.

Lemma item_defined (array : list val) (j : nat) (el : val) :
  el ≠ VUndef → strict_eq (item array (Z.of_nat j)) el = true →
  ∃ x, array !! j = Some x ∧ strict_eq x el = true.
Proof.
  intros Hel. unfold item.
  destruct (Z.ltb_spec (Z.of_nat j) 0); [lia|]. rewrite Nat2Z.id.
  destruct (array !! j) as [x|]; simpl; [by eauto|].
  intros Hb. apply strict_eq_sound in Hb. congruence.
Qed.

(** X19: for an element other than undefined and no offset, [lastIndexOf]
    returns -1 exactly when no element is strictly equal to [el], and
    otherwise the index of the last such element. *)
Theorem lastIndexOf_last (this : list val) (el : val) :
  el ≠ VUndef →
  (lastIndexOf this el None = -1
   ∧ ∀ (j : nat) x, this !! j = Some x → strict_eq x el = false)
  ∨ (∃ (k : nat) x,
       lastIndexOf this el None = Z.of_nat k
       ∧ this !! k = Some x ∧ strict_eq x el = true
       ∧ ∀ (j : nat) y, (k < j)%nat → this !! j = Some y →
           strict_eq y el = false).
Proof.
  intros Hel. unfold lastIndexOf.
  destruct (Z.eqb_spec (Z.of_nat (length this)) 0).
  { left. split; [done|]. intros j x Hj.
    apply lookup_lt_Some in Hj. lia. }
  destruct (Z.ltb_spec (-1) (Z.of_nat (length this))); [|lia].
  rewrite Nat2Z.id.
  assert (∀ (j : nat) y, this !! j = Some y →
            item this (Z.of_nat j) = y) as Hitem.
  { intros j y Hj. unfold item.
    destruct (Z.ltb_spec (Z.of_nat j) 0); [lia|].
    by rewrite Nat2Z.id, Hj. }
  destruct (scan_back_spec el this (length this))
    as [[Hs Hall]|(k & Hs & Hk & Hy & Hall)].
  - left. split; [done|]. intros j x Hj.
    rewrite <- (Hitem j x Hj). apply Hall.
    apply lookup_lt_Some in Hj. lia.
  - right. destruct (item_defined this k el Hel Hy) as (x & Hx & Hxe).
    exists k, x. split_and!; [done|done|done|].
    intros j y Hlt Hj. rewrite <- (Hitem j y Hj). apply Hall.
    apply lookup_lt_Some in Hj. lia.
Qed.

Lemma distinct_snoc (ret : list val) (v : val) :
  distinct ret → (∀ x, x ∈ ret → strict_eq x v = false) →
  distinct (ret ++ [v]).
Proof.
  intros Hd Hv i j x y Hlt Hi Hj.
  assert (j < length (ret ++ [v]))%nat as Hjl by by eapply lookup_lt_Some.
  rewrite length_app in Hjl. simpl in Hjl.
  assert (ret !! i = Some x) as Hi'.
  { rewrite lookup_app_l in Hi; [done|lia]. }
  destruct (decide (j = length ret)) as [->|Hne].
  - rewrite list_lookup_middle in Hj by done. simplify_eq.
    apply Hv. by eapply list_elem_of_lookup_2.
  - rewrite lookup_app_l in Hj by lia. by apply (Hd i j x y).
Qed.

Lemma merge_loop_distinct (values ret : list val) :
  distinct ret → distinct (merge_loop values ret).
Proof.
  revert ret. induction values as [|v values IH]; intros ret Hd; simpl;
    [done|].
  apply IH. destruct (Z.eqb_spec (indexOf ret v 0) (-1)) as [Hi|Hi]; [|done].
  apply distinct_snoc; [done|]. by apply indexOf_0_none.
Qed.

Lemma merge_loop_members (values ret : list val) (v : val) :
  v ∈ merge_loop values ret ↔ v ∈ ret ∨ v ∈ values.
Proof.
  revert ret. induction values as [|w values IH]; intros ret; simpl.
  - split; [by left|]. intros [Hv|Hv]; [done|]. by apply elem_of_nil in Hv.
  - rewrite IH. rewrite elem_of_cons.
    destruct (Z.eqb_spec (indexOf ret w 0) (-1)) as [Hi|Hi].
    + rewrite elem_of_app, list_elem_of_singleton. tauto.
    + split; [tauto|]. intros [Hv|[->|Hv]]; [tauto| |tauto].
      left. destruct (indexOf_0_cases ret w)
        as [[Hn _]|(k & x & _ & Hk & Hx & _)]; [done|].
      apply strict_eq_sound in Hx as ->.
      by eapply list_elem_of_lookup_2.
Qed.

Lemma merge_loop_NaN (values ret : list val) :
  filter (λ x, x = VNaN) (merge_loop values ret)
  = filter (λ x, x = VNaN) ret ++ filter (λ x, x = VNaN) values.
Proof.
  revert ret. induction values as [|w values IH]; intros ret; simpl.
  - by rewrite app_nil_r.
  - rewrite IH. destruct (decide (w = VNaN)) as [->|Hw].
    + assert (indexOf ret VNaN 0 = -1) as ->.
      { apply indexOf_0_none. intros x _. by destruct x. }
      simpl. rewrite filter_app, filter_cons_True by done.
      rewrite filter_cons_True by done. by rewrite <- app_assoc.
    + rewrite (filter_cons_False _ w) by done.
      destruct (Z.eqb_spec (indexOf ret w 0) (-1)) as [Hi|Hi]; [|done].
      rewrite filter_app, filter_cons_False by done.
      by rewrite filter_nil, app_nil_r.
Qed.

Lemma merge_loop_fresh (values ret : list val) :
  distinct (ret ++ values) → merge_loop values ret = ret ++ values.
Proof.
  revert ret. induction values as [|v values IH]; intros ret Hd; simpl.
  - by rewrite app_nil_r.
  - assert (indexOf ret v 0 = -1) as ->.
    { apply indexOf_0_none. intros x Hx.
      apply list_elem_of_lookup in Hx as [i Hi].
      apply (Hd i (length ret) x v).
      - by eapply lookup_lt_Some.
      - by rewrite lookup_app_l by by eapply lookup_lt_Some.
      - by rewrite list_lookup_middle. }
    simpl. rewrite IH; rewrite <- app_assoc; done.
Qed.

(** X20: the result of [enyo.merge] holds exactly the values found in its
    arguments. *)
Theorem merge_members (arguments : list arg) (v : val) :
  v ∈ merge arguments ↔ v ∈ concat_args arguments.
Proof.
  unfold merge. rewrite merge_loop_members. split; [|by right].
  intros [Hv|Hv]; [by apply elem_of_nil in Hv|done].
Qed.

(** X21: no entry of the result of [enyo.merge] is strictly equal to
    another one. *)
Theorem merge_distinct (arguments : list arg) : distinct (merge arguments).
Proof.
  apply merge_loop_distinct. intros i j x y _ Hi.
  by rewrite lookup_nil in Hi.
Qed.

(** X22: [enyo.merge] removes no NaN: the result holds as many as the
    arguments do. *)
Theorem merge_keeps_NaN (arguments : list arg) :
  filter (λ x, x = VNaN) (merge arguments)
  = filter (λ x, x = VNaN) (concat_args arguments).
Proof. unfold merge. by rewrite merge_loop_NaN. Qed.

(** X23: merging the result of [enyo.merge] again changes nothing. *)
Theorem merge_idempotent (arguments : list arg) :
  merge [Arr (merge arguments)] = merge arguments.
Proof.
  unfold merge at 1. simpl. rewrite app_nil_r.
  rewrite merge_loop_fresh; [done|].
  apply merge_loop_distinct. intros i j x y _ Hi.
  by rewrite lookup_nil in Hi.
Qed.

Lemma cloneArray_loop_spec (array : list val) (rounds : nat) (i : Z)
    (ret : list val) :
  i + Z.of_nat rounds = Z.of_nat (length array) →
  cloneArray_loop array i rounds ret
  = ret ++ replicate (Z.to_nat (- i)) VUndef ++ drop (Z.to_nat i) array.
Proof.
  revert i ret. induction rounds as [|rounds IH]; intros i ret Hi; simpl.
  - replace (Z.to_nat (- i)) with 0%nat by lia.
    rewrite drop_ge by lia. by rewrite app_nil_r.
  - rewrite IH by lia. rewrite <- app_assoc. f_equal. unfold item.
    destruct (Z.ltb_spec i 0) as [Hneg|Hpos].
    + replace (Z.to_nat (- i)) with (S (Z.to_nat (- (i + 1)))) by lia.
      replace (Z.to_nat (i + 1)) with 0%nat by lia.
      by replace (Z.to_nat i) with 0%nat by lia.
    + replace (Z.to_nat (- (i + 1))) with 0%nat by lia.
      replace (Z.to_nat (- i)) with 0%nat by lia.
      replace (Z.to_nat (i + 1)) with (S (Z.to_nat i)) by lia.
      destruct (lookup_lt_is_Some_2 array (Z.to_nat i)) as [x Hx]; [lia|].
      rewrite Hx. simpl. by rewrite (drop_S _ _ _ Hx).
Qed.

(** X24: [enyo.cloneArray] appends to the initial array (or to a new one)
    the elements of [array] from [offset] on; a negative offset puts that
    many undefined entries before the whole of [array], and an offset
    beyond the end adds nothing. *)
Theorem cloneArray_appends (array : list val) (offset : Z)
    (initialArray : option (list val)) :
  cloneArray array offset initialArray
  = default [] initialArray
    ++ replicate (Z.to_nat (- offset)) VUndef
    ++ drop (Z.to_nat offset) array.
Proof.
  unfold cloneArray.
  destruct (Z.le_gt_cases offset (Z.of_nat (length array))) as [Hle|Hgt].
  - apply cloneArray_loop_spec. lia.
  - replace (Z.to_nat (Z.of_nat (length array) - offset)) with 0%nat by lia.
    replace (Z.to_nat (- offset)) with 0%nat by lia.
    rewrite drop_ge by lia. simpl. by rewrite app_nil_r.
Qed.

(** X25: [enyo.remove] takes out the first occurrence of the element, and
    only that one. *)
Theorem remove_first_occurrence (pre post : list val) (el : val) :
  el ≠ VNaN → el ∉ pre →
  remove (pre ++ el :: post) el = pre ++ post.
Proof.
  intros Hnan Hpre. unfold remove.
  rewrite (indexOf_0_found pre post el el).
  - destruct (Z.ltb_spec (-1) (Z.of_nat (length pre))); [|lia].
    unfold splice. rewrite Nat2Z.id.
    rewrite take_app_length. f_equal.
    rewrite (cons_middle el pre post), app_assoc.
    apply drop_app_length'. rewrite length_app. simpl. lia.
  - by apply strict_eq_refl.
  - intros y Hy. apply strict_eq_ne. by intros ->.
Qed.

(** X26: [enyo.remove] leaves the array as it is when the element does not
    occur in it, and always when the element is NaN. *)
Theorem remove_absent (array : list val) (el : val) :
  el = VNaN ∨ el ∉ array → remove array el = array.
Proof.
  intros Hel. unfold remove.
  assert (indexOf array el 0 = -1) as ->; [|done].
  apply indexOf_0_none. intros x Hx.
  destruct (strict_eq x el) eqn:Hb; [|done].
  apply strict_eq_true in Hb as [-> Hn]. by destruct Hel.
Qed.

Lemma only_loop_lookup (properties : list string) (object : obj)
    (ignore : bool) (ret : obj) (k : string) :
  only_loop properties object ignore ret !! k
  = if bool_decide (k ∈ properties) then
      let v := default VUndef (object !! k) in
      if ignore && (strict_eq v VUndef || strict_eq v VNull) then ret !! k
      else Some v
    else ret !! k.
Proof.
  revert ret. induction properties as [|p properties IH]; intros ret; simpl.
  - done.
  - destruct (decide (p = k)) as [->|Hne].
    + rewrite (bool_decide_eq_true_2 (k ∈ k :: properties))
        by (apply elem_of_cons; by left).
      destruct (ignore && _) eqn:Hc; rewrite IH; simpl.
      * rewrite Hc. by case_bool_decide.
      * rewrite Hc, lookup_insert_eq. by case_bool_decide.
    + assert (bool_decide (k ∈ p :: properties)
              = bool_decide (k ∈ properties)) as ->.
      { apply bool_decide_ext. rewrite elem_of_cons.
        split; [|by right]. by intros [->|Hk]. }
      destruct (ignore && (strict_eq (default VUndef (object !! p)) VUndef
                 || strict_eq (default VUndef (object !! p)) VNull));
        rewrite IH; [done|].
      by rewrite lookup_insert_ne by done.
Qed.

(** X27: the object [enyo.only] returns has the listed properties and no
    others, each with the value read from [object]: undefined for one that
    [object] lacks.  With a truthy [ignore] it leaves out those whose value
    is undefined or null, and no other. *)
Theorem only_lookup (properties : list string) (object : obj) (ignore : val)
    (k : string) :
  only properties object ignore !! k
  = if bool_decide (k ∈ properties) then
      let v := default VUndef (object !! k) in
      if truthy ignore && (strict_eq v VUndef || strict_eq v VNull) then None
      else Some v
    else None.
Proof. unfold only. by rewrite only_loop_lookup, lookup_empty. Qed.

Lemma lastIndexOf_undefined_witness :
  lastIndexOf [VNum 1; VNum 2] VUndef None = 2.
Proof.
  apply (lastIndexOf_undefined [VNum 1; VNum 2] None);
    [discriminate|exact I].
Defined.

Lemma lastIndexOf_last_witness :
  (lastIndexOf [VNum 1; VNum 2; VNum 1] (VNum 1) None = -1
   ∧ ∀ (j : nat) x, [VNum 1; VNum 2; VNum 1] !! j = Some x →
       strict_eq x (VNum 1) = false)
  ∨ (∃ (k : nat) x,
       lastIndexOf [VNum 1; VNum 2; VNum 1] (VNum 1) None = Z.of_nat k
       ∧ [VNum 1; VNum 2; VNum 1] !! k = Some x
       ∧ strict_eq x (VNum 1) = true
       ∧ ∀ (j : nat) y, (k < j)%nat →
           [VNum 1; VNum 2; VNum 1] !! j = Some y →
           strict_eq y (VNum 1) = false).
Proof.
  apply (lastIndexOf_last [VNum 1; VNum 2; VNum 1] (VNum 1)).
  discriminate.
Defined.

Lemma remove_first_occurrence_witness :
  remove ([VNum 1] ++ VNum 2 :: [VNum 3; VNum 2]) (VNum 2)
  = [VNum 1] ++ [VNum 3; VNum 2].
Proof.
  apply (remove_first_occurrence [VNum 1] [VNum 3; VNum 2] (VNum 2));
    [discriminate|].
  apply (bool_decide_unpack _). by vm_compute.
Defined.

Lemma remove_absent_witness :
  remove [VNaN; VNum 1] VNaN = [VNaN; VNum 1].
Proof.
  apply (remove_absent [VNaN; VNum 1] VNaN). left. reflexivity.
Defined.

End ArraysFacts.


(** * The life cycle of bindings *)

Module BindingSupportLife.
Import BindingSupport BindingSupportFacts.

Section Life.
Context `{Kinds}.

Lemma truthy_defined (v : val) : truthy v = true → v ≠ VUndef.
Proof. by intros Hv ->. Qed.

Lemma or_else_truthy (a b : val) : truthy b = true → truthy (or_else a b) = true.
Proof. intros Hb. unfold or_else. by destruct (truthy a) eqn:Ha. Qed.

Lemma or_else_same (a b : val) : truthy a = true → or_else a b = a.
Proof. intros Ha. unfold or_else. by rewrite Ha. Qed.

Lemma or_else_twice (k own dflt : val) :
  let K := or_else (or_else k own) dflt in
  or_else (or_else K own) dflt = K.
Proof.
  intros K. subst K. unfold or_else.
  destruct (truthy k) eqn:Hk; destruct (truthy own) eqn:Ho;
    destruct (truthy dflt) eqn:Hd;
    rewrite ?Hk, ?Ho, ?Hd; rewrite ?Hk, ?Ho, ?Hd; done.
Qed.

Lemma foldl_mixin_defined (args : list obj) :
  ∀ acc : obj,
    (∀ k v, acc !! k = Some v → strict_eq (empty k) v = false) →
    ∀ k v, foldl (mixin_src mixinDefaults) acc args !! k = Some v →
      strict_eq (empty k) v = false.
Proof.
  induction args as [|src args IH]; intros acc Hacc; simpl; [done|].
  apply IH. intros k' v'. rewrite mixin_src_lookup.
  destruct (src !! k') as [v|]; [|by apply Hacc]. simpl.
  destruct (strict_eq (empty k') v) eqn:Hv; simpl; [by apply Hacc|].
  by intros [= <-].
Qed.

Lemma merged_defined (args : list obj) (k : string) (v : val) :
  merged args !! k = Some v → strict_eq (empty k) v = false.
Proof.
  apply foldl_mixin_defined. intros k' v'. by rewrite lookup_empty.
Qed.

Lemma merged_single (p : obj) :
  (∀ k v, p !! k = Some v → strict_eq (empty k) v = false) →
  merged [p] = p.
Proof.
  intros Hp. apply map_eq. intros k. unfold merged. simpl.
  rewrite mixin_src_lookup. rewrite lookup_empty.
  destruct (p !! k) as [v|] eqn:Hk; [|done]. simpl.
  by rewrite (Hp k v Hk).
Qed.

Lemma queued_declared (args : list obj) :
  truthy self = true →
  typeof (declared_ctor args) = TFunction →
  declared_ctor [queued args] = declared_ctor args
  ∧ declared_props [queued args] = declared_props args.
Proof.
  intros Hself Hctor.
  set (p := with_owner (merged args)).
  assert (kind_of p ≠ VUndef) as HK.
  { intros HK. unfold declared_ctor in Hctor. fold p in Hctor.
    by rewrite HK in Hctor. }
  assert (prop p "owner" = or_else (prop (merged args) "owner") self)
    as Howner.
  { unfold p, with_owner, prop. by rewrite lookup_insert_eq. }
  assert (merged [queued args] = queued args) as Hm.
  { apply merged_single. intros k v. unfold queued. fold p.
    destruct (decide (k = "kind")) as [->|Hk].
    { rewrite lookup_insert_eq. intros [= <-].
      apply strict_eq_ne. by intros Hu. }
    rewrite lookup_insert_ne by done. unfold p, with_owner.
    destruct (decide (k = "owner")) as [->|Ho].
    { rewrite lookup_insert_eq. intros [= <-].
      apply strict_eq_ne. intros Hu. symmetry in Hu. revert Hu.
      by apply (truthy_defined _
                  (or_else_truthy (prop (merged args) "owner") self Hself)). }
    rewrite lookup_insert_ne by done. apply merged_defined. }
  assert (with_owner (queued args) = queued args) as Hw.
  { unfold with_owner at 1.
    assert (prop (queued args) "owner" = prop p "owner") as ->.
    { unfold queued, prop. fold p. by rewrite lookup_insert_ne. }
    rewrite Howner. rewrite or_else_same by by apply or_else_truthy.
    apply insert_id. unfold queued. fold p.
    rewrite lookup_insert_ne by done.
    unfold p, with_owner. by rewrite lookup_insert_eq. }
  assert (kind_of (queued args) = kind_of p) as Hk.
  { unfold kind_of at 1.
    assert (prop (queued args) "kind" = kind_of p) as ->.
    { unfold queued, prop. fold p. by rewrite lookup_insert_eq. }
    apply or_else_twice. }
  assert (declared_ctor [queued args] = declared_ctor args) as Hc.
  { unfold declared_ctor. by rewrite Hm, Hw, Hk. }
  split; [done|].
  unfold declared_props. rewrite Hc, Hm, Hw.
  unfold queued. fold p. by rewrite insert_insert_eq.
Qed.

Lemma binding_queued (args : list obj) (w : owner) :
  bindingSupportInitialized w = false →
  binding args w =
    Ok This {| bindings := Some (default [] (bindings w)
                                 ++ [Raw (queued args)]);
               bindingSupportInitialized := false;
               instances := instances w;
               log := log w |}.
Proof.
  intros Hi. unfold binding, push. unfold_B. simpl. by rewrite Hi.
Qed.

(** X28: a binding asked for before the owner is constructed is queued and
    builds nothing; [constructed] then builds, after the declarations
    already queued, the very Binding that asking for it on the constructed
    owner would have built. *)
Theorem binding_then_constructed (args : list obj) (decls : list obj)
    (w : owner) :
  bindingSupportInitialized w = false →
  default [] (bindings w) = map Raw decls →
  forallb constructible decls = true →
  truthy self = true →
  typeof (declared_ctor args) = TFunction →
  (binding args;; constructed) w =
    sup_constructed
      {| bindings := Some (map Live (seq (length (instances w))
                                         (length decls + 1)));
         bindingSupportInitialized := true;
         instances := instances w ++ map instance_of decls
                      ++ [MkBinding (declared_props args) false];
         log := log w ++ map construction_of decls
                ++ [Constructed (declared_ctor args) (declared_props args)] |}.
Proof.
  intros Hi Hb Hall Hself Hctor.
  destruct (queued_declared args Hself Hctor) as [Hqc Hqp].
  change ((binding args;; constructed) w)
    with (match binding args w with
          | Ok _ s' => constructed s'
          | Throw e s' => Throw e s'
          end).
  rewrite (binding_queued args w Hi), Hb.
  change (map Raw decls ++ [Raw (queued args)])
    with (map Raw decls ++ map Raw [queued args]).
  rewrite <- map_app.
  assert (forallb constructible (decls ++ [queued args]) = true) as Hall'.
  { rewrite forallb_app, Hall. simpl. unfold constructible.
    rewrite Hqc. by rewrite bool_decide_eq_true_2. }
  pose proof (forEach_declarations (decls ++ [queued args])
                {| bindings := Some [];
                   bindingSupportInitialized := true;
                   instances := instances w;
                   log := log w |} [] eq_refl eq_refl Hall') as Hrun.
  unfold constructed. unfold_B. simpl. simpl in Hrun. rewrite Hrun.
  rewrite !map_app, length_app. simpl.
  unfold instance_of at 2. unfold construction_of at 2.
  by rewrite Hqc, Hqp.
Qed.

(** X29: [destroy] on an owner whose array still holds a raw declaration,
    one that was never constructed, fails with a TypeError once the
    inherited [destroy] has returned: a declaration has no destroy method.
    The array is left as it was, not set to null. *)
Theorem destroy_before_constructed (d : obj) (rest : list entry)
    (w w0 : owner) :
  sup_destroy w = Ok tt w0 →
  bindings w0 = Some (Raw d :: rest) →
  typeof (prop d "destroy") ≠ TFunction →
  destroy w = Throw TypeError w0.
Proof.
  intros Hsup Hb Hd. unfold destroy, clearBindings. unfold_B.
  rewrite Hsup, Hb. simpl. unfold_B. rewrite Hb. simpl.
  by rewrite bool_decide_eq_false_2.
Qed.

Lemma removeBinding_spec (b : nat) (w : owner) (l : list entry) :
  bindings w = Some l →
  b < length (instances w) →
  ∃ w1, removeBinding b w = Ok tt w1
        ∧ bindings w1 = Some (remove (Live b) l)
        ∧ log w1 = log w
        ∧ length (instances w1) = length (instances w)
        ∧ ∀ b', is_destroyed w1 b' = is_destroyed w b'.
Proof.
  intros Hb Hlt.
  destruct (lookup_lt_is_Some_2 _ _ Hlt) as [i Hi].
  unfold removeBinding. unfold_B. rewrite Hb. simpl. rewrite Hi.
  destruct (strict_eq (prop (fields i) "owner") self).
  - eexists. split; [reflexivity|]. simpl.
    split_and!; [done|done|by rewrite length_insert|].
    intros b'. unfold is_destroyed. simpl.
    destruct (decide (b = b')) as [<-|Hne].
    + rewrite list_lookup_insert_eq by done. by rewrite Hi.
    + by rewrite list_lookup_insert_ne.
  - eexists. split; [reflexivity|]. simpl. by split_and!.
Qed.

Lemma remove_middle (pre post : list nat) (b : nat) :
  b ∉ pre →
  remove (Live b) (map Live (pre ++ b :: post)) = map Live (pre ++ post).
Proof.
  induction pre as [|x pre IH]; intros Hpre; simpl.
  - by rewrite bool_decide_eq_true_2.
  - apply not_elem_of_cons in Hpre as [Hne Hpre].
    rewrite bool_decide_eq_false_2 by congruence.
    by rewrite IH.
Qed.

Lemma Binding_destroy_frame (b b' : nat) (w w' : owner) :
  b' ≠ b →
  Binding_destroy b w = Ok tt w' →
  is_destroyed w' b' = is_destroyed w b'.
Proof.
  intros Hne. unfold Binding_destroy. unfold_B.
  destruct (instances w !! b) as [i|] eqn:Hi; [|done]. simpl.
  destruct (strict_eq (prop (fields i) "owner") self) eqn:Hown.
  - unfold removeBinding. unfold_B. simpl.
    destruct (bindings w) as [l|]; [|done]. simpl. rewrite Hi, Hown. simpl.
    rewrite list_lookup_insert_eq by by eapply lookup_lt_Some.
    intros [= <-]. unfold is_destroyed. simpl.
    by rewrite !list_lookup_insert_ne.
  - simpl. rewrite Hi. intros [= <-]. unfold is_destroyed. simpl.
    by rewrite list_lookup_insert_ne.
Qed.

Lemma forEach_destroy_frame (bs : list nat) (b' : nat) :
  b' ∉ bs →
  ∀ w w', forEach entry_destroy (map Live bs) w = Ok tt w' →
    is_destroyed w' b' = is_destroyed w b'.
Proof.
  induction bs as [|b bs IH]; intros Hnot w w'; simpl.
  - unfold_St. by intros [= <-].
  - apply not_elem_of_cons in Hnot as [Hne Hnot]. unfold_St.
    destruct (Binding_destroy b w) as [[] w1|] eqn:Hrun; [|done].
    intros Hrest. rewrite (IH Hnot w1 w' Hrest).
    by apply (Binding_destroy_frame b b' w w1).
Qed.

(** X30: a Binding taken out with [removeBinding] is left alone when its
    former owner is destroyed: [destroy] destroys the Bindings that remain
    in the array, and the removed one is as destroyed as it was before. *)
Theorem removed_binding_survives (pre post : list nat) (b : nat)
    (w : owner) :
  (∀ w0, sup_destroy w0 = Ok tt w0) →
  bindings w = Some (map Live (pre ++ b :: post)) →
  existing w (pre ++ b :: post) = true →
  b ∉ pre → b ∉ post →
  ∃ w', (removeBinding b;; destroy) w = Ok tt w'
        ∧ bindings w' = None
        ∧ log w' = log w ++ map Destroyed (pre ++ post)
        ∧ is_destroyed w' b = is_destroyed w b
        ∧ ∀ b', b' ∈ pre ++ post → is_destroyed w' b' = true.
Proof.
  intros Hsup Hb Hex Hpre Hpost.
  assert (b < length (instances w)) as Hlt.
  { unfold existing in Hex. rewrite forallb_app in Hex.
    apply andb_true_iff in Hex as [_ Hex]. simpl in Hex.
    apply andb_true_iff in Hex as [Hex _].
    by apply bool_decide_eq_true_1 in Hex. }
  destruct (removeBinding_spec b w _ Hb Hlt)
    as (w1 & Hrun & Hb1 & Hlog1 & Hlen1 & Hd1).
  rewrite remove_middle in Hb1 by done.
  assert (existing w1 (pre ++ post) = true) as Hex1.
  { unfold existing in *. rewrite Hlen1.
    rewrite forallb_app in *. simpl in Hex.
    apply andb_true_iff in Hex as [Hex1 Hex2].
    apply andb_true_iff in Hex2 as [_ Hex2]. by rewrite Hex1, Hex2. }
  assert (b ∉ pre ++ post) as Hnot.
  { rewrite elem_of_app. tauto. }
  unfold_St. rewrite Hrun. unfold destroy. unfold_B. rewrite Hsup, Hb1.
  destruct (pre ++ post) as [|x rest] eqn:Hrest.
  - simpl. eexists. split; [reflexivity|]. simpl.
    rewrite app_nil_r. split_and!; [done|done|by rewrite <- Hd1|].
    intros b' Hin. by apply elem_of_nil in Hin.
  - destruct (forEach_destroy (x :: rest) w1 _ Hb1 Hex1)
      as (w2 & Hrun2 & _ & _ & Hlog2 & Hd2 & _).
    unfold clearBindings. unfold_B. cbn [map]. cbv beta iota.
    rewrite Hb1, Hrun2.
    eexists. split; [reflexivity|]. simpl.
    split_and!; [done|by rewrite Hlog2, Hlog1| |].
    + rewrite <- Hd1.
      apply (forEach_destroy_frame (x :: rest) b Hnot w1 w2 Hrun2).
    + intros b' Hin. by apply Hd2.
Qed.

End Life.

Lemma binding_then_constructed_witness :
  (@binding plain_kinds [{["from" := VStr ".a"]}];; @constructed plain_kinds)
    fresh_owner
  = Ok tt
      {| bindings := Some [Live 0];
         bindingSupportInitialized := true;
         instances :=
           [MkBinding (@declared_props plain_kinds [{["from" := VStr ".a"]}])
                      false];
         log := [Constructed
                   (@declared_ctor plain_kinds [{["from" := VStr ".a"]}])
                   (@declared_props plain_kinds [{["from" := VStr ".a"]}])] |}.
Proof.
  apply (@binding_then_constructed plain_kinds [{["from" := VStr ".a"]}] []
           fresh_owner); reflexivity.
Defined.

Lemma destroy_before_constructed_witness :
  @destroy plain_kinds queued_owner = Throw TypeError queued_owner.
Proof.
  apply (@destroy_before_constructed plain_kinds
           {["from" := VStr ".a"; "to" := VStr ".b"]}
           [Raw {["from" := VStr ".c"; "to" := VStr ".d";
                  "kind" := VStr "enyo.Binding"]}]
           queued_owner queued_owner);
    [reflexivity|reflexivity|discriminate].
Defined.

Lemma removed_binding_survives_witness :
  ∃ w', (@removeBinding plain_kinds 0;; @destroy plain_kinds) live_owner
        = Ok tt w'
        ∧ bindings w' = None
        ∧ log w' = log live_owner ++ map Destroyed ([] ++ [1])
        ∧ is_destroyed w' 0 = is_destroyed live_owner 0
        ∧ ∀ b', b' ∈ [] ++ [1] → is_destroyed w' b' = true.
Proof.
  apply (@removed_binding_survives plain_kinds [] [1] 0 live_owner);
    [reflexivity|reflexivity|reflexivity| |];
    apply (bool_decide_unpack _); by vm_compute.
Defined.

End BindingSupportLife.
